(** * VoxTranslate: the session controller and its collaborators

    A shallow embedding of [src/App.tsx] and [src/services/geminiService.ts].

    - JavaScript strings are sequences of UTF-16 code units ([jsstring]).
    - React state, the two refs, [localStorage], the Web Audio source nodes
      and the requests sent to the hosted model are fields of one [World];
      every handler of the component is a function on worlds.
    - An [await] on an external service is resolved by an [Oracle] that
      carries the service's answer.
    - A handler closes over the values of the render it was created in; the
      embedding passes that render as an explicit [Snapshot].
    - [localStorage.setItem] is taken to succeed (no quota error). *)

From Stdlib Require Import ZArith NArith QArith Ascii String.
From Stdlib.Strings Require Byte.
From stdpp Require Import gmap list.

Local Open Scope Z_scope.
Local Open Scope list_scope.

(** ** JavaScript strings *)

Module JsString.

(** A string value: its UTF-16 code units, each below 65536. *)
Definition jsstring : Type := list N.

(** A string literal of the source, unit by unit (ASCII only). *)
Definition js (s : String.string) : jsstring :=
  List.map N_of_ascii (list_ascii_of_string s).

Definition eqb (a b : jsstring) : bool := bool_decide (a = b).

(** [!s] on a string: true exactly for the empty string. *)
Definition falsy (s : jsstring) : bool :=
  match s with [] => true | _ :: _ => false end.

(** ECMA-262 WhiteSpace and LineTerminator code points, the ones
    [String.prototype.trim] strips. *)
Definition is_whitespace (c : N) : bool :=
  (  (c =? 9) || (c =? 10) || (c =? 11) || (c =? 12) || (c =? 13)
  || (c =? 32) || (c =? 160) || (c =? 5760)
  || ((8192 <=? c) && (c <=? 8202))
  || (c =? 8232) || (c =? 8233) || (c =? 8239) || (c =? 8287)
  || (c =? 12288) || (c =? 65279))%N.

Fixpoint trimStart (s : jsstring) : jsstring :=
  match s with
  | c :: s' => if is_whitespace c then trimStart s' else s
  | [] => []
  end.

Definition trimEnd (s : jsstring) : jsstring := rev (trimStart (rev s)).

Definition trim (s : jsstring) : jsstring := trimEnd (trimStart s).

End JsString.
Export JsString.

(** ** JSON values, [JSON.parse] and [JSON.stringify]

    The platform functions behind the persisted history (ECMA-262, 25.5).
    A number is kept as the exact decimal its text denotes; rounding to
    IEEE doubles is not modelled. *)

Module JSON.

(** The decimal [0.d1 d2 ... dk * 10^dpoint]: [dsig] holds the significant
    digits, without leading or trailing zeros; zero has no digits. *)
Record DecimalNum : Type := mkDecimal
  { dneg : bool; dsig : list N; dpoint : Z }.

#[warnings="-register-all"] Inductive JSValue : Type :=
| JNull
| JBool (b : bool)
| JNum (d : DecimalNum)
| JStr (s : jsstring)
| JArr (items : list JSValue)
| JObj (members : list (jsstring * JSValue)).

Definition ch (a : ascii) : N := N_of_ascii a.

Definition is_digit (c : N) : bool := ((48 <=? c) && (c <=? 57))%N.
Definition digit_val (c : N) : N := (c - 48)%N.

Fixpoint strip_zeros (ds : list N) : list N :=
  match ds with
  | d :: ds' => if (d =? 0)%N then strip_zeros ds' else ds
  | [] => []
  end.

(** The decimal with digit string [ds] (most significant first), sign
    [neg] and value [ds * 10^e]. *)
Definition decimal_of_digits (neg : bool) (ds : list N) (e : Z) : DecimalNum :=
  let lead := strip_zeros ds in
  let sig := rev (strip_zeros (rev lead)) in
  match sig with
  | [] => mkDecimal false [] 0
  | _ => mkDecimal neg sig (Z.of_nat (length lead) + e)
  end.

Fixpoint uint_digits (u : Decimal.uint) : list N :=
  match u with
  | Decimal.Nil => []
  | Decimal.D0 u' => 0%N :: uint_digits u'
  | Decimal.D1 u' => 1%N :: uint_digits u'
  | Decimal.D2 u' => 2%N :: uint_digits u'
  | Decimal.D3 u' => 3%N :: uint_digits u'
  | Decimal.D4 u' => 4%N :: uint_digits u'
  | Decimal.D5 u' => 5%N :: uint_digits u'
  | Decimal.D6 u' => 6%N :: uint_digits u'
  | Decimal.D7 u' => 7%N :: uint_digits u'
  | Decimal.D8 u' => 8%N :: uint_digits u'
  | Decimal.D9 u' => 9%N :: uint_digits u'
  end.

(** The decimal digits of a natural number, most significant first. *)
Definition nat_digits (n : N) : list N := uint_digits (N.to_uint n).

Definition decimal_of_Z (z : Z) : DecimalNum :=
  decimal_of_digits (z <? 0) (nat_digits (Z.to_N (Z.abs z))) 0.

(** *** Own-property order of a parsed object *)

(** An array index: the canonical decimal text of an integer at most
    [2^32 - 2]. *)
Definition array_index (k : jsstring) : option N :=
  match k with
  | [] => None
  | c :: rest =>
      if forallb is_digit k && (negb (c =? 48)%N || falsy rest)
      then
        let v := fold_left (fun a d => (10 * a + digit_val d)%N) k 0%N in
        if (v <=? 4294967294)%N then Some v else None
      else None
  end.

(** [CreateDataProperty]: a key already present keeps its place. *)
Fixpoint define_property (k : jsstring) (v : JSValue)
    (ms : list (jsstring * JSValue)) : list (jsstring * JSValue) :=
  match ms with
  | [] => [(k, v)]
  | (k', v') :: ms' =>
      if eqb k k' then (k', v) :: ms' else (k', v') :: define_property k v ms'
  end.

Fixpoint insert_index (i : N) (m : jsstring * JSValue)
    (sorted : list (N * (jsstring * JSValue))) : list (N * (jsstring * JSValue)) :=
  match sorted with
  | [] => [(i, m)]
  | (j, m') :: rest =>
      if (i <? j)%N then (i, m) :: sorted else (j, m') :: insert_index i m rest
  end.

(** [OrdinaryOwnPropertyKeys]: array indices ascending, then the other
    keys in creation order. *)
Definition own_property_order (ms : list (jsstring * JSValue))
    : list (jsstring * JSValue) :=
  let idx := fold_left
    (fun acc m => match array_index (fst m) with
                  | Some i => insert_index i m acc
                  | None => acc
                  end) ms [] in
  List.map snd idx
    ++ List.filter (fun m => negb (bool_decide (is_Some (array_index (fst m))))) ms.

Definition make_object (ms : list (jsstring * JSValue)) : JSValue :=
  JObj (own_property_order
          (fold_left (fun o m => define_property (fst m) (snd m) o) ms [])).

(** *** Lexical grammar

    The text is read one code unit at a time; [LexState] is what the
    reader is in the middle of. *)

Inductive Token : Type :=
| TLBracket | TRBracket | TLBrace | TRBrace | TComma | TColon
| TScalar (v : JSValue).

Inductive NumPhase : Type :=
| NMinus | NZero | NInt | NDot | NFrac | NE | NESign | NExp.

(** A number being read: sign, digits so far (latest first), how many of
    them follow the point, and the exponent part. *)
Record NumAcc : Type := mkNumAcc
  { nneg : bool; ndigits : list N; nfrac : Z; neneg : bool; nexp : Z }.

Inductive LexState : Type :=
| LIdle
| LLit (rest : jsstring) (v : JSValue)
| LStr (acc : jsstring)
| LEsc (acc : jsstring)
| LUni (acc : jsstring) (seen : nat) (val : N)
| LNum (ph : NumPhase) (a : NumAcc).

Definition is_json_space (c : N) : bool :=
  ((c =? 9) || (c =? 10) || (c =? 13) || (c =? 32))%N.

Definition hex_val (c : N) : option N :=
  if is_digit c then Some (c - 48)%N
  else if ((97 <=? c) && (c <=? 102))%N then Some (c - 87)%N
  else if ((65 <=? c) && (c <=? 70))%N then Some (c - 55)%N
  else None.

Definition num_start (neg : bool) : NumAcc := mkNumAcc neg [] 0 false 0.

Definition push_digit (c : N) (frac : bool) (a : NumAcc) : NumAcc :=
  mkNumAcc (nneg a) (digit_val c :: ndigits a)
           (if frac then nfrac a + 1 else nfrac a) (neneg a) (nexp a).

Definition push_exp (c : N) (a : NumAcc) : NumAcc :=
  mkNumAcc (nneg a) (ndigits a) (nfrac a) (neneg a)
           (10 * nexp a + Z.of_N (digit_val c)).

Definition set_exp_sign (neg : bool) (a : NumAcc) : NumAcc :=
  mkNumAcc (nneg a) (ndigits a) (nfrac a) neg (nexp a).

Definition number_token (a : NumAcc) : Token :=
  TScalar (JNum (decimal_of_digits (nneg a) (rev (ndigits a))
                   ((if neneg a then - nexp a else nexp a) - nfrac a))).

Definition num_complete (ph : NumPhase) : bool :=
  match ph with NZero | NInt | NFrac | NExp => true | _ => false end.

(** Between tokens. [toks] is the token list so far, latest first. *)
Definition lex_idle (toks : list Token) (c : N) : option (LexState * list Token) :=
  if is_json_space c then Some (LIdle, toks)
  else if (c =? ch "[")%N then Some (LIdle, TLBracket :: toks)
  else if (c =? ch "]")%N then Some (LIdle, TRBracket :: toks)
  else if (c =? ch "{")%N then Some (LIdle, TLBrace :: toks)
  else if (c =? ch "}")%N then Some (LIdle, TRBrace :: toks)
  else if (c =? ch ",")%N then Some (LIdle, TComma :: toks)
  else if (c =? ch ":")%N then Some (LIdle, TColon :: toks)
  else if (c =? 34)%N then Some (LStr [], toks)
  else if (c =? ch "n")%N then Some (LLit (js "ull") JNull, toks)
  else if (c =? ch "t")%N then Some (LLit (js "rue") (JBool true), toks)
  else if (c =? ch "f")%N then Some (LLit (js "alse") (JBool false), toks)
  else if (c =? ch "-")%N then Some (LNum NMinus (num_start true), toks)
  else if (c =? ch "0")%N then Some (LNum NZero (push_digit c false (num_start false)), toks)
  else if is_digit c then Some (LNum NInt (push_digit c false (num_start false)), toks)
  else None.

Definition lex_escape (c : N) : option N :=
  if (c =? 34)%N then Some 34%N
  else if (c =? 92)%N then Some 92%N
  else if (c =? ch "/")%N then Some 47%N
  else if (c =? ch "b")%N then Some 8%N
  else if (c =? ch "f")%N then Some 12%N
  else if (c =? ch "n")%N then Some 10%N
  else if (c =? ch "r")%N then Some 13%N
  else if (c =? ch "t")%N then Some 9%N
  else None.

Definition is_exp_mark (c : N) : bool := ((c =? ch "e") || (c =? ch "E"))%N.

Definition lex_number (ph : NumPhase) (a : NumAcc) (toks : list Token) (c : N)
    : option (LexState * list Token) :=
  let finish := lex_idle (number_token a :: toks) c in
  match ph with
  | NMinus =>
      if (c =? ch "0")%N then Some (LNum NZero (push_digit c false a), toks)
      else if is_digit c then Some (LNum NInt (push_digit c false a), toks)
      else None
  | NZero =>
      if (c =? ch ".")%N then Some (LNum NDot a, toks)
      else if is_exp_mark c then Some (LNum NE a, toks)
      else if is_digit c then None
      else finish
  | NInt =>
      if is_digit c then Some (LNum NInt (push_digit c false a), toks)
      else if (c =? ch ".")%N then Some (LNum NDot a, toks)
      else if is_exp_mark c then Some (LNum NE a, toks)
      else finish
  | NDot =>
      if is_digit c then Some (LNum NFrac (push_digit c true a), toks) else None
  | NFrac =>
      if is_digit c then Some (LNum NFrac (push_digit c true a), toks)
      else if is_exp_mark c then Some (LNum NE a, toks)
      else finish
  | NE =>
      if (c =? ch "+")%N then Some (LNum NESign a, toks)
      else if (c =? ch "-")%N then Some (LNum NESign (set_exp_sign true a), toks)
      else if is_digit c then Some (LNum NExp (push_exp c a), toks)
      else None
  | NESign =>
      if is_digit c then Some (LNum NExp (push_exp c a), toks) else None
  | NExp =>
      if is_digit c then Some (LNum NExp (push_exp c a), toks) else finish
  end.

Definition lex_step (st : LexState) (toks : list Token) (c : N)
    : option (LexState * list Token) :=
  match st with
  | LIdle => lex_idle toks c
  | LLit [] _ => None
  | LLit (x :: rest) v =>
      if (c =? x)%N
      then Some (if falsy rest then (LIdle, TScalar v :: toks) else (LLit rest v, toks))
      else None
  | LStr acc =>
      if (c =? 34)%N then Some (LIdle, TScalar (JStr (rev acc)) :: toks)
      else if (c =? 92)%N then Some (LEsc acc, toks)
      else if (c <? 32)%N then None
      else Some (LStr (c :: acc), toks)
  | LEsc acc =>
      if (c =? ch "u")%N then Some (LUni acc 0 0%N, toks)
      else match lex_escape c with
           | Some u => Some (LStr (u :: acc), toks)
           | None => None
           end
  | LUni acc seen val =>
      match hex_val c with
      | Some h =>
          let val' := (16 * val + h)%N in
          Some (if (seen =? 3)%nat then (LStr (val' :: acc), toks)
                else (LUni acc (S seen) val', toks))
      | None => None
      end
  | LNum ph a => lex_number ph a toks c
  end.

Fixpoint lex (st : LexState) (toks : list Token) (s : jsstring)
    : option (list Token) :=
  match s with
  | c :: s' =>
      match lex_step st toks c with
      | Some (st', toks') => lex st' toks' s'
      | None => None
      end
  | [] =>
      match st with
      | LIdle => Some (rev toks)
      | LNum ph a => if num_complete ph then Some (rev (number_token a :: toks)) else None
      | _ => None
      end
  end.

(** *** Syntactic grammar

    A stack of the arrays and objects still open, and what may come
    next. *)

Inductive Frame : Type :=
| FArr (acc : list JSValue)
| FObj (acc : list (jsstring * JSValue)) (key : option jsstring).

Inductive PState : Type :=
| PValue (fresh : bool)
| PKey (fresh : bool)
| PColon
| PAfter
| PDone (v : JSValue).

(** A value is complete: it goes into the innermost open container. *)
Definition deliver (v : JSValue) (stack : list Frame) : option (list Frame * PState) :=
  match stack with
  | [] => Some ([], PDone v)
  | FArr acc :: up => Some (FArr (v :: acc) :: up, PAfter)
  | FObj acc (Some k) :: up => Some (FObj ((k, v) :: acc) None :: up, PAfter)
  | FObj _ None :: _ => None
  end.

Definition parse_step (stack : list Frame) (st : PState) (t : Token)
    : option (list Frame * PState) :=
  match st, t with
  | PValue _, TScalar v => deliver v stack
  | PValue _, TLBracket => Some (FArr [] :: stack, PValue true)
  | PValue _, TLBrace => Some (FObj [] None :: stack, PKey true)
  | PValue true, TRBracket =>
      match stack with
      | FArr acc :: up => deliver (JArr (rev acc)) up
      | _ => None
      end
  | PKey _, TScalar (JStr k) =>
      match stack with
      | FObj acc _ :: up => Some (FObj acc (Some k) :: up, PColon)
      | _ => None
      end
  | PKey true, TRBrace =>
      match stack with
      | FObj acc _ :: up => deliver (make_object (rev acc)) up
      | _ => None
      end
  | PColon, TColon => Some (stack, PValue false)
  | PAfter, TComma =>
      match stack with
      | FArr _ :: _ => Some (stack, PValue false)
      | FObj _ _ :: _ => Some (stack, PKey false)
      | [] => None
      end
  | PAfter, TRBracket =>
      match stack with
      | FArr acc :: up => deliver (JArr (rev acc)) up
      | _ => None
      end
  | PAfter, TRBrace =>
      match stack with
      | FObj acc _ :: up => deliver (make_object (rev acc)) up
      | _ => None
      end
  | _, _ => None
  end.

Fixpoint parse_tokens (stack : list Frame) (st : PState) (toks : list Token)
    : option JSValue :=
  match toks with
  | t :: toks' =>
      match parse_step stack st t with
      | Some (stack', st') => parse_tokens stack' st' toks'
      | None => None
      end
  | [] => match st with PDone v => Some v | _ => None end
  end.

(** [JSON.parse(text)]: [None] when it throws a SyntaxError. *)
Definition JSON_parse (text : jsstring) : option JSValue :=
  match lex LIdle [] text with
  | Some toks => parse_tokens [] (PValue false) toks
  | None => None
  end.

(** *** [JSON.stringify] *)

Definition digit_char (d : N) : N := (d + 48)%N.

Definition hex_char (d : N) : N := if (d <? 10)%N then (d + 48)%N else (d + 87)%N.

(** [\uXXXX], lower-case digits. *)
Definition unicode_escape (c : N) : jsstring :=
  [92; 117; hex_char (c / 4096); hex_char ((c / 256) mod 16);
   hex_char ((c / 16) mod 16); hex_char (c mod 16)]%N.

Definition is_high_surrogate (c : N) : bool := ((55296 <=? c) && (c <=? 56319))%N.
Definition is_low_surrogate (c : N) : bool := ((56320 <=? c) && (c <=? 57343))%N.

(** [QuoteJSONString], without the enclosing quotes. [paired] tells that
    the unit before was a high surrogate waiting for its partner. *)
Fixpoint quote_units (paired : bool) (s : jsstring) : jsstring :=
  match s with
  | [] => []
  | c :: s' =>
      if (c =? 8)%N then js "\b" ++ quote_units false s'
      else if (c =? 9)%N then js "\t" ++ quote_units false s'
      else if (c =? 10)%N then js "\n" ++ quote_units false s'
      else if (c =? 12)%N then js "\f" ++ quote_units false s'
      else if (c =? 13)%N then js "\r" ++ quote_units false s'
      else if (c =? 34)%N then [92; 34]%N ++ quote_units false s'
      else if (c =? 92)%N then [92; 92]%N ++ quote_units false s'
      else if (c <? 32)%N then unicode_escape c ++ quote_units false s'
      else if is_high_surrogate c then
        match s' with
        | c' :: _ => if is_low_surrogate c' then c :: quote_units true s'
                     else unicode_escape c ++ quote_units false s'
        | [] => unicode_escape c
        end
      else if is_low_surrogate c then
        (if paired then [c] else unicode_escape c) ++ quote_units false s'
      else c :: quote_units false s'
  end.

Definition quote (s : jsstring) : jsstring := [34%N] ++ quote_units false s ++ [34%N].

Definition decimal_text (z : Z) : jsstring :=
  List.map digit_char (match nat_digits (Z.to_N (Z.abs z)) with [] => [0%N] | ds => ds end).

(** [Number::toString] on the shortest decimal of the number. *)
Definition number_text (d : DecimalNum) : jsstring :=
  match dsig d with
  | [] => js "0"
  | d1 :: rest =>
      let ds := List.map digit_char (dsig d) in
      let k := Z.of_nat (length ds) in
      let n := dpoint d in
      (if dneg d then js "-" else []) ++
      (if (k <=? n) && (n <=? 21) then ds ++ repeat 48%N (Z.to_nat (n - k))
       else if (0 <? n) && (n <=? 21) then
         take (Z.to_nat n) ds ++ js "." ++ drop (Z.to_nat n) ds
       else if (-6 <? n) && (n <=? 0) then
         js "0." ++ repeat 48%N (Z.to_nat (- n)) ++ ds
       else
         [digit_char d1] ++ (if falsy rest then [] else js "." ++ List.map digit_char rest)
         ++ js "e" ++ (if n - 1 <? 0 then js "-" else js "+") ++ decimal_text (n - 1))
  end.

Fixpoint join (sep : jsstring) (parts : list jsstring) : jsstring :=
  match parts with
  | [] => []
  | [p] => p
  | p :: ps => p ++ sep ++ join sep ps
  end.

Fixpoint JSON_stringify (v : JSValue) : jsstring :=
  match v with
  | JNull => js "null"
  | JBool true => js "true"
  | JBool false => js "false"
  | JNum d => number_text d
  | JStr s => quote s
  | JArr items => js "[" ++ join (js ",") (List.map JSON_stringify items) ++ js "]"
  | JObj members =>
      js "{" ++ join (js ",")
        (List.map (fun m => quote (fst m) ++ js ":" ++ JSON_stringify (snd m)) members)
      ++ js "}"
  end.

End JSON.
Export JSON.

(** ** Thrown values and the effect monad *)

Module Effects.

Inductive ErrorName : Type :=
| Error | TypeError | DecodeError | EmptyAudioError.

(** A thrown error object: the handlers read only [err.message]. *)
Record JsError : Type := mkError { name : ErrorName; message : jsstring }.

Inductive Result (A : Type) : Type :=
| Return (a : A)
| Throw (e : JsError).
Arguments Return {A} a.
Arguments Throw {A} e.

(** A computation over a state [S] that may throw; the state reached
    before the throw is kept. *)
Definition M (S A : Type) : Type := S -> Result A * S.

Definition ret {S A} (a : A) : M S A := fun s => (Return a, s).

Definition throw {S A} (e : JsError) : M S A := fun s => (Throw e, s).

Definition bind {S A B} (m : M S A) (k : A -> M S B) : M S B :=
  fun s => match m s with
           | (Return a, s') => k a s'
           | (Throw e, s') => (Throw e, s')
           end.

(** A statement executed for its effect on the state. *)
Definition exec {S} (f : S -> S) : M S unit := fun s => (Return tt, f s).

Definition lift {S A} (r : Result A) : M S A := fun s => (r, s).

(** [try { m } catch (err) { handler err }]. *)
Definition try_catch {S} (m : M S unit) (handler : JsError -> S -> S) : S -> S :=
  fun s => match m s with
           | (Return _, s') => s'
           | (Throw e, s') => handler e s'
           end.

End Effects.
Export Effects.

Notation "'let!' x ':=' m 'in' k" := (bind m (fun x => k))
  (at level 10, x name, m at level 100, k at level 200).
Notation "'do!' m 'in' k" := (bind m (fun _ => k))
  (at level 10, m at level 100, k at level 200).

(** ** The audio decode pipeline ([./utils/audio]) *)

Module Audio.

Definition byte_of (n : N) : Byte.byte :=
  match Byte.of_N (n mod 256) with Some b => b | None => Byte.x00 end.

(** Modelled from the spec: the value of a character of the base64
    alphabet (glossary: a 64-character alphabet). *)
Definition base64_val (c : N) : option N :=
  if ((65 <=? c) && (c <=? 90))%N then Some (c - 65)%N
  else if ((97 <=? c) && (c <=? 122))%N then Some (c - 71)%N
  else if ((48 <=? c) && (c <=? 57))%N then Some (c + 4)%N
  else if (c =? 43)%N then Some 62%N
  else if (c =? 47)%N then Some 63%N
  else None.

Definition is_pad (c : N) : bool := (c =? 61)%N.

(** Modelled from the spec: one group of four characters; only the
    [final] group may be padded. *)
Definition decode_group (final : bool) (a b c d : N) : option (list Byte.byte) :=
  match base64_val a, base64_val b with
  | Some x, Some y =>
      let b1 := byte_of (4 * x + y / 16) in
      match base64_val c, base64_val d with
      | Some z, Some t =>
          Some [b1; byte_of (16 * (y mod 16) + z / 4); byte_of (64 * (z mod 4) + t)]
      | Some z, None =>
          if final && is_pad d
          then Some [b1; byte_of (16 * (y mod 16) + z / 4)] else None
      | None, _ =>
          if final && is_pad c && is_pad d then Some [b1] else None
      end
  | _, _ => None
  end%N.

(** Modelled from the spec: the text is read four characters at a time; a
    length that is not a multiple of four is invalid padding. *)
Fixpoint decode_groups (s : jsstring) : option (list Byte.byte) :=
  match s with
  | [] => Some []
  | a :: b :: c :: d :: rest =>
      match decode_group (falsy rest) a b c d, decode_groups rest with
      | Some g, Some bs => Some (g ++ bs)
      | _, _ => None
      end
  | _ => None
  end.

(** Modelled from the spec: [decode] of [./utils/audio] is not among the
    sources. Spec 4.1, [decodeBase64ToBytes]: a pure transformation that
    fails with [DecodeError] if the string contains characters outside
    the base64 alphabet or has invalid padding. *)
Definition decodeBase64ToBytes (payload : jsstring) : Result (list Byte.byte) :=
  match decode_groups payload with
  | Some bs => Return bs
  | None => Throw (mkError DecodeError (js "DecodeError"))
  end.

(** Modelled from the spec: a signed 16-bit little-endian sample. *)
Definition int16_le (lo hi : Byte.byte) : Z :=
  let u := Z.of_N (Byte.to_N lo) + 256 * Z.of_N (Byte.to_N hi) in
  if 32768 <=? u then u - 65536 else u.

(** Modelled from the spec: the complete samples of a byte sequence; a
    trailing odd byte is left out. *)
Fixpoint samples_of (bs : list Byte.byte) : list Z :=
  match bs with
  | lo :: hi :: rest => int16_le lo hi :: samples_of rest
  | _ => []
  end.

(** Modelled from the spec: a buffer at a sample rate with one plane of
    normalised samples per channel. *)
Record AudioBuffer : Type := mkAudioBuffer
  { sampleRate : Z; frameCount : Z; channelData : list (list Q) }.

(** Modelled from the spec: plane [c] of data interleaved over [n]
    channels, each sample divided by 32768. *)
Definition plane (samples : list Z) (n frames c : nat) : list Q :=
  List.map (fun i => Qmake (nth (i * n + c)%nat samples 0) 32768) (seq 0 frames).

(** Modelled from the spec: [decodeAudioData] of [./utils/audio] is not
    among the sources. Spec 4.1, [bytesToAudioBuffer]: the bytes are signed
    16-bit little-endian samples interleaved by channel; frame count =
    floor(byteLength / 2 / channelCount); each sample is divided by 32768;
    the buffer has [channelCount] planes of frame-count samples; fails
    with [EmptyAudioError] if byteLength < 2. *)
Definition bytesToAudioBuffer (bytes : list Byte.byte) (rate channelCount : Z)
    : Result AudioBuffer :=
  let byteLength := Z.of_nat (length bytes) in
  if byteLength <? 2 then Throw (mkError EmptyAudioError (js "EmptyAudioError"))
  else
    let frames := byteLength / 2 / channelCount in
    Return (mkAudioBuffer rate frames
              (List.map (plane (samples_of bytes) (Z.to_nat channelCount) (Z.to_nat frames))
                        (seq 0 (Z.to_nat channelCount)))).

End Audio.
Export Audio.

(** ** The world the component runs in *)

Module Types.

(** [VoiceName], the type of the five voice names of the source
    ('Kore', 'Puck', 'Charon', 'Fenrir', 'Zephyr'): at run time a string,
    handed to the synthesis request as it is. Every string is admitted
    here, the five names among them. *)
Definition VoiceName : Type := jsstring.

(** [TranslationResult] of [./types], with the fields of the literal
    built in [handleTranslateAndSpeak]. *)
Record TranslationResult : Type := mkTranslationResult
  { originalText : jsstring;
    translatedText : jsstring;
    sourceLang : jsstring;
    targetLang : jsstring;
    timestamp : Z }.

(** The record as a JavaScript object. *)
Definition to_js (r : TranslationResult) : JSValue :=
  JObj [ (js "originalText", JStr (originalText r));
         (js "translatedText", JStr (translatedText r));
         (js "sourceLang", JStr (sourceLang r));
         (js "targetLang", JStr (targetLang r));
         (js "timestamp", JNum (decimal_of_Z (timestamp r))) ].

End Types.

Module WebAudio.

(** An [AudioContext] object. [contextId] is its identity: the number of
    contexts constructed on the page before it, so two contexts built by
    two [new AudioContext(...)] are different values even at the same
    rate. *)
Record AudioContext : Type := mkAudioContext { contextId : nat; contextRate : Z }.

Inductive EndCause : Type := ReachedEnd | StopCalled.

(** A started source node plays until its buffer runs out or [stop()] is
    called; either way the platform then queues one [ended] event for it
    (Web Audio API, AudioScheduledSourceNode). *)
Inductive NodeState : Type :=
| Playing
| Ending (cause : EndCause)
| Ended (cause : EndCause).

(** The one closure the component installs as [onended]. *)
Inductive Handler : Type := SetIsPlayingFalse.

Record SourceNode : Type := mkSourceNode
  { buffer : AudioBuffer;
    connected : bool;
    onended : option Handler;
    state : NodeState }.

Definition with_state (st : NodeState) (n : SourceNode) : SourceNode :=
  mkSourceNode (buffer n) (connected n) (onended n) st.

(** [node.stop()] on a started node: no effect once it has stopped. *)
Definition stop (n : SourceNode) : SourceNode :=
  match state n with
  | Playing => with_state (Ending StopCalled) n
  | _ => n
  end.

Definition is_playing (n : SourceNode) : bool :=
  match state n with Playing => true | _ => false end.

End WebAudio.
Export WebAudio.

Module Service.

(** A request to [ai.models.generateContent]: the model, the contents and,
    for speech, the prebuilt voice. *)
Record Request : Type := mkRequest
  { model : jsstring; contents : jsstring; voice : option Types.VoiceName }.

(** What the component reads of a response: [response.text] and the
    inline data of the first part of the first candidate. *)
Record Response : Type := mkResponse
  { text : option jsstring; inlineData : option jsstring }.

Inductive Reply : Type :=
| Rejected (e : JsError)
| Resolved (r : Response).

(** [v || ''] on an optional string. *)
Definition or_empty (v : option jsstring) : jsstring :=
  match v with Some s => s | None => [] end.

Section Calls.
(** The state these functions act on only has to record requests. *)
Context {S : Type} (record : Request -> S -> S).

Definition generateContent (rq : Request) (reply : Reply) : M S Response :=
  do! exec (record rq) in
  match reply with
  | Rejected e => throw e
  | Resolved r => ret r
  end.

Definition translateText (text sourceLang targetLang : jsstring) (reply : Reply)
    : M S jsstring :=
  if eqb sourceLang targetLang then ret text
  else
    let! response :=
      generateContent
        (mkRequest (js "gemini-3-flash-preview")
           (js "Translate the following text from " ++ sourceLang ++ js " to "
            ++ targetLang
            ++ js ". Only return the translated text without any explanations or extra characters: "
            ++ [34%N] ++ text ++ [34%N])
           None)
        reply in
    ret (or_empty (Service.text response)).

Definition generateSpeech (text : jsstring) (voiceName : Types.VoiceName) (reply : Reply)
    : M S jsstring :=
  let! response :=
    generateContent
      (mkRequest (js "gemini-2.5-flash-preview-tts") text (Some voiceName)) reply in
  match inlineData response with
  | Some base64Audio =>
      if falsy base64Audio
      then throw (mkError Error (js "No audio data returned"))
      else ret base64Audio
  | None => throw (mkError Error (js "No audio data returned"))
  end.
End Calls.

End Service.
Export Service.

(** ** The component ([App.tsx]) *)

Module App.

(** The nine [useState] cells. [history] holds whatever value was last
    handed to [setHistory]; TypeScript's [TranslationResult[]] is not
    enforced at run time. *)
Record AppState : Type := mkAppState
  { inputText : jsstring;
    translatedText : jsstring;
    sourceLang : jsstring;
    targetLang : jsstring;
    selectedVoice : Types.VoiceName;
    isLoading : bool;
    isPlaying : bool;
    history : JSValue;
    error : option jsstring }.

(** The values a handler closes over: those of the render that created
    it. *)
Definition Snapshot : Type := AppState.

(** [contexts] counts the [AudioContext] objects constructed since the page
    was loaded. *)
Record World : Type := mkWorld
  { app : AppState;
    audioContextRef : option AudioContext;
    sourceNodeRef : option nat;
    nodes : list SourceNode;
    localStorage : gmap jsstring jsstring;
    requests : list Request;
    console : list jsstring;
    contexts : nat }.

(** The answers of the outside world during one run of a handler. *)
Record Oracle : Type := mkOracle
  { translateReply : Reply; speechReply : Reply; now : Z }.

Definition initialState : AppState :=
  mkAppState [] [] (js "en") (js "es") (js "Zephyr") false false (JArr []) None.

Definition with_app (f : AppState -> AppState) (w : World) : World :=
  mkWorld (f (app w)) (audioContextRef w) (sourceNodeRef w) (nodes w)
          (localStorage w) (requests w) (console w) (contexts w).

Definition setTranslatedText (v : jsstring) : World -> World :=
  with_app (fun a => mkAppState (inputText a) v (sourceLang a) (targetLang a)
                       (selectedVoice a) (isLoading a) (isPlaying a) (history a) (error a)).

Definition setIsLoading (v : bool) : World -> World :=
  with_app (fun a => mkAppState (inputText a) (translatedText a) (sourceLang a)
                       (targetLang a) (selectedVoice a) v (isPlaying a) (history a) (error a)).

Definition setIsPlaying (v : bool) : World -> World :=
  with_app (fun a => mkAppState (inputText a) (translatedText a) (sourceLang a)
                       (targetLang a) (selectedVoice a) (isLoading a) v (history a) (error a)).

Definition setHistory (v : JSValue) : World -> World :=
  with_app (fun a => mkAppState (inputText a) (translatedText a) (sourceLang a)
                       (targetLang a) (selectedVoice a) (isLoading a) (isPlaying a) v (error a)).

Definition setError (v : option jsstring) : World -> World :=
  with_app (fun a => mkAppState (inputText a) (translatedText a) (sourceLang a)
                       (targetLang a) (selectedVoice a) (isLoading a) (isPlaying a)
                       (history a) v).

Definition with_storage (f : gmap jsstring jsstring -> gmap jsstring jsstring)
    (w : World) : World :=
  mkWorld (app w) (audioContextRef w) (sourceNodeRef w) (nodes w)
          (f (localStorage w)) (requests w) (console w) (contexts w).

Definition getItem (k : jsstring) (w : World) : option jsstring := localStorage w !! k.
Definition setItem (k v : jsstring) : World -> World := with_storage (insert k v).
Definition removeItem (k : jsstring) : World -> World := with_storage (delete k).

Definition record_request (rq : Request) (w : World) : World :=
  mkWorld (app w) (audioContextRef w) (sourceNodeRef w) (nodes w)
          (localStorage w) (requests w ++ [rq]) (console w) (contexts w).

Definition console_error (msg : jsstring) (w : World) : World :=
  mkWorld (app w) (audioContextRef w) (sourceNodeRef w) (nodes w)
          (localStorage w) (requests w) (console w ++ [msg]) (contexts w).

Definition with_nodes (ref : option nat) (ns : list SourceNode) (w : World) : World :=
  mkWorld (app w) (audioContextRef w) ref ns (localStorage w) (requests w) (console w)
          (contexts w).

Definition vox_history : jsstring := js "vox_history".

(** *** The history load effect (lines 26-36) *)

Definition mountEffect (w : World) : World :=
  match getItem vox_history w with
  | Some saved =>
      if falsy saved then w
      else match JSON_parse saved with
           | Some v => setHistory v w
           | None => console_error (js "Failed to parse history") w
           end
  | None => w
  end.

(** A page load: fresh state and refs over the storage left by earlier
    runs, then the mount effect. *)
Definition start (storage : gmap jsstring jsstring) : World :=
  mountEffect (mkWorld initialState None None [] storage [] [] 0%nat).

Definition restart (w : World) : World := start (localStorage w).

(** *** [saveToHistory] (lines 38-42) *)

(** The code points of a string, as the string iterator yields them. *)
Fixpoint code_points (s : jsstring) : list jsstring :=
  match s with
  | [] => []
  | c :: s' =>
      match s' with
      | c' :: s'' =>
          if is_high_surrogate c && is_low_surrogate c'
          then [c; c'] :: code_points s''
          else [c] :: code_points s'
      | [] => [[c]]
      end
  end.

(** [...v] inside an array literal. *)
Definition spread (v : JSValue) : Result (list JSValue) :=
  match v with
  | JArr items => Return items
  | JStr s => Return (List.map JStr (code_points s))
  | _ => Throw (mkError TypeError (js "history is not iterable"))
  end.

Definition saveToHistory (snap : Snapshot) (result : JSValue) : M World unit :=
  let! rest := lift (spread (history snap)) in
  let newHistory := JArr (take 10 (result :: rest)) in
  do! exec (setHistory newHistory) in
  exec (setItem vox_history (JSON_stringify newHistory)).

(** *** [speakText] (lines 72-109) *)

Definition decode : jsstring -> Result (list Byte.byte) := decodeBase64ToBytes.

Definition decodeAudioData (data : list Byte.byte) (ctx : AudioContext)
    (rate numChannels : Z) : Result AudioBuffer :=
  bytesToAudioBuffer data rate numChannels.

(** Lines 79-85: the context is created on first use and kept. The
    [new AudioContext({sampleRate: 24000})] of line 80 constructs one more
    context of the page. *)
Definition ensureAudioContext : M World AudioContext :=
  fun w =>
    match audioContextRef w with
    | Some ctx => (Return ctx, w)
    | None =>
        let ctx := mkAudioContext (contexts w) 24000 in
        (Return ctx,
         mkWorld (app w) (Some ctx) (sourceNodeRef w) (nodes w)
                 (localStorage w) (requests w) (console w) (S (contexts w)))
    end.

(** Lines 93-96: stop the node the ref points to, if any. *)
Definition stopCurrent (w : World) : World :=
  match sourceNodeRef w with
  | Some i => with_nodes (sourceNodeRef w) (alter WebAudio.stop i (nodes w)) w
  | None => w
  end.

(** Lines 98-103: a new source over the buffer, connected to the
    destination, with its [onended] handler, started, and kept in the
    ref. *)
Definition startSource (audioBuffer : AudioBuffer) (w : World) : World :=
  let source := mkSourceNode audioBuffer true (Some SetIsPlayingFalse) Playing in
  with_nodes (Some (length (nodes w))) (nodes w ++ [source]) w.

Definition play (audioBuffer : AudioBuffer) (w : World) : World :=
  startSource audioBuffer (stopCurrent w).

Definition speakText (snap : Snapshot) (text : jsstring) (o : Oracle) (w : World) : World :=
  if falsy text then w
  else
    try_catch
      (let! base64Audio :=
         generateSpeech record_request text (selectedVoice snap) (speechReply o) in
       let! ctx := ensureAudioContext in
       let! bytes := lift (decode base64Audio) in
       let! audioBuffer := lift (decodeAudioData bytes ctx 24000 1) in
       exec (play audioBuffer))
      (fun err w' =>
         setIsPlaying false
           (setError (Some (js "Speech synthesis failed: " ++ message err)) w'))
      (setIsPlaying true w).

(** *** [handleTranslateAndSpeak] (lines 44-70) *)

(** [err.message || "An unexpected error occurred"]. *)
Definition message_or_default (err : JsError) : jsstring :=
  if falsy (message err) then js "An unexpected error occurred" else message err.

Definition handleTranslateAndSpeak (snap : Snapshot) (o : Oracle) (w : World) : World :=
  if falsy (trim (inputText snap)) then w
  else
    let w1 := setError None (setIsLoading true w) in
    let w2 :=
      try_catch
        (let! translation :=
           translateText record_request (inputText snap) (sourceLang snap)
                         (targetLang snap) (translateReply o) in
         do! exec (setTranslatedText translation) in
         do! saveToHistory snap
               (Types.to_js
                  (Types.mkTranslationResult (inputText snap) translation
                     (sourceLang snap) (targetLang snap) (now o))) in
         exec (speakText snap translation o))
        (fun err => setError (Some (message_or_default err)))
        w1 in
    setIsLoading false w2.

(** *** [clearHistory] (lines 111-114) *)

Definition clearHistory (w : World) : World :=
  removeItem vox_history (setHistory (JArr []) w).

(** *** Events of the platform *)

(** The buffer of node [i] runs out. *)
Definition reachEnd (i : nat) (w : World) : World :=
  match nodes w !! i with
  | Some n =>
      match state n with
      | Playing => with_nodes (sourceNodeRef w) (<[i := with_state (Ending ReachedEnd) n]> (nodes w)) w
      | _ => w
      end
  | None => w
  end.

Definition run_handler (h : option Handler) (w : World) : World :=
  match h with
  | Some SetIsPlayingFalse => setIsPlaying false w
  | None => w
  end.

(** The queued [ended] event of node [i] is dispatched: its [onended]
    handler runs. *)
Definition dispatchEnded (i : nat) (w : World) : World :=
  match nodes w !! i with
  | Some n =>
      match state n with
      | Ending cause =>
          run_handler (onended n)
            (with_nodes (sourceNodeRef w) (<[i := with_state (Ended cause) n]> (nodes w)) w)
      | _ => w
      end
  | None => w
  end.

End App.
Export App.

(** ** Runs of the application *)

Module Session.

(** One event. Either a handler of the component, run without interruption
    against the snapshot of some render and some answers of the services;
    or an event of the audio platform; or one synchronous piece of a
    handler that is suspended at an [await] while other events take place:
    a write to the state cells (which also covers the controls that only
    edit the input fields), a request being sent, a write to the storage,
    the creation of the audio context, the start of a playback. Every
    interleaving of handlers is a sequence of such steps. *)
Inductive step : World -> World -> Prop :=
| step_submit snap o w : step w (handleTranslateAndSpeak snap o w)
| step_speak snap text o w : step w (speakText snap text o w)
| step_clear w : step w (clearHistory w)
| step_reach_end i w : step w (reachEnd i w)
| step_dispatch i w : step w (dispatchEnded i w)
| step_cells f w : step w (with_app f w)
| step_request rq w : step w (record_request rq w)
| step_store k v w : step w (setItem k v w)
| step_context w : step w (snd (ensureAudioContext w))
| step_play buf w : step w (play buf w).

Definition reachable (w : World) : Prop :=
  exists storage, rtc step (start storage) w.

(** The number of source nodes that are playing. *)
Definition playing_count (w : World) : nat :=
  length (List.filter is_playing (nodes w)).

Definition node_state (i : nat) (w : World) : option NodeState :=
  state <$> nodes w !! i.

(** The four states of the specification's session machine, read off the
    component's flags; [Failed] is the state the specification calls
    Error. *)
Inductive SessionState : Type := Idle | Translating | Speaking | Failed.

Definition session_state (a : AppState) : SessionState :=
  match error a with
  | Some _ => Failed
  | None => if isPlaying a then Speaking
            else if isLoading a then Translating else Idle
  end.

(** The history obtained from [w] by appending the records [rs] one
    after the other, each append made by the render that shows the
    history so far. *)
Fixpoint appends (rs : list Types.TranslationResult) (w : World) : Result unit * World :=
  match rs with
  | [] => (Return tt, w)
  | r :: rs' =>
      match saveToHistory (app w) (Types.to_js r) w with
      | (Return _, w') => appends rs' w'
      | (Throw e, w') => (Throw e, w')
      end
  end.

(** Every node carries the [onended] handler; no node but the latest is
    playing, and the ref points to the latest. *)
Definition audio_inv (w : World) : Prop :=
  Forall (fun n => onended n = Some SetIsPlayingFalse) (nodes w)
  /\ ((nodes w = [] /\ sourceNodeRef w = None)
      \/ exists ns n, nodes w = ns ++ [n]
                      /\ Forall (fun m => is_playing m = false) ns
                      /\ sourceNodeRef w = Some (length ns)).

(** [w'] has the source nodes and the ref of [w]. *)
Definition same_audio (w w' : World) : Prop :=
  nodes w' = nodes w /\ sourceNodeRef w' = sourceNodeRef w.

Definition preserved (P : World -> Prop) (f : World -> World) : Prop :=
  forall w, P w -> P (f w).

Definition preserves (P : World -> Prop) {A} (m : M World A) : Prop :=
  forall w, P w -> P (snd (m w)).

(** The shape of a history as [saveToHistory] writes it: an array of
    objects with the four string fields and the numeric time stamp of the
    literal in [handleTranslateAndSpeak]. *)
Definition field (k : jsstring) (v : JSValue) : option JSValue :=
  match v with
  | JObj ms => snd <$> List.find (fun m => eqb (fst m) k) ms
  | _ => None
  end.

Definition string_field (k : jsstring) (v : JSValue) : bool :=
  match field k v with Some (JStr _) => true | _ => false end.

Definition is_record (v : JSValue) : bool :=
  string_field (js "originalText") v && string_field (js "translatedText") v
  && string_field (js "sourceLang") v && string_field (js "targetLang") v
  && match field (js "timestamp") v with Some (JNum _) => true | _ => false end.

Definition is_record_list (v : JSValue) : bool :=
  match v with
  | JArr items => forallb is_record items
  | _ => false
  end.

End Session.
Export Session.

(** ** The controls of the page (the JSX of [App.tsx]) *)

Module Controls.

Definition setInputText (v : jsstring) : World -> World :=
  with_app (fun a => mkAppState v (translatedText a) (sourceLang a) (targetLang a)
                       (selectedVoice a) (isLoading a) (isPlaying a) (history a) (error a)).

Definition setSourceLang (v : jsstring) : World -> World :=
  with_app (fun a => mkAppState (inputText a) (translatedText a) v (targetLang a)
                       (selectedVoice a) (isLoading a) (isPlaying a) (history a) (error a)).

Definition setTargetLang (v : jsstring) : World -> World :=
  with_app (fun a => mkAppState (inputText a) (translatedText a) (sourceLang a) v
                       (selectedVoice a) (isLoading a) (isPlaying a) (history a) (error a)).

(** The swap button (lines 142-146):
    [const temp = sourceLang; setSourceLang(targetLang); setTargetLang(temp)]. *)
Definition swapLanguages (snap : Snapshot) (w : World) : World :=
  let temp := sourceLang snap in
  setTargetLang temp (setSourceLang (targetLang snap) w).

(** [item.k] for one of the four text fields of a history entry, when it
    is a string. *)
Definition text_field (k : jsstring) (item : JSValue) : option jsstring :=
  match field k item with
  | Some (JStr s) => Some s
  | _ => None
  end.

(** A click on a history entry (lines 278-283). [None] where one of the
    four properties is missing or is not a string: the cell would then be
    handed a value that is no string, which the cells of this embedding
    do not hold. *)
Definition loadEntry (item : JSValue) (w : World) : option World :=
  match text_field (js "originalText") item, text_field (js "translatedText") item,
        text_field (js "sourceLang") item, text_field (js "targetLang") item with
  | Some original, Some translated, Some source, Some target =>
      Some (setTargetLang target
              (setSourceLang source
                 (setTranslatedText translated
                    (setInputText original w))))
  | _, _, _, _ => None
  end.

(** The entry at position [i] of the list the render shows. *)
Definition clickEntry (snap : Snapshot) (i : nat) (w : World) : option World :=
  match history snap with
  | JArr items => match items !! i with
                  | Some item => loadEntry item w
                  | None => None
                  end
  | _ => None
  end.

End Controls.
Export Controls.

(** ** What the services answer, apart from the requests they record *)

Module Outcome.

Definition no_record (rq : Request) (u : unit) : unit := u.

(** The value [translateText] resolves to, or the error it rejects
    with. *)
Definition translated (text sourceLang targetLang : jsstring) (reply : Reply)
    : Result jsstring :=
  fst (translateText no_record text sourceLang targetLang reply tt).

(** The payload [generateSpeech] resolves to, or the error it rejects
    with. *)
Definition synthesized (text : jsstring) (voiceName : Types.VoiceName) (reply : Reply)
    : Result jsstring :=
  fst (generateSpeech no_record text voiceName reply tt).

(** The two requests of the source. *)
Definition translation_request (text sourceLang targetLang : jsstring) : Request :=
  mkRequest (js "gemini-3-flash-preview")
    (js "Translate the following text from " ++ sourceLang ++ js " to "
     ++ targetLang
     ++ js ". Only return the translated text without any explanations or extra characters: "
     ++ [34%N] ++ text ++ [34%N])
    None.

Definition speech_request (text : jsstring) (voiceName : Types.VoiceName) : Request :=
  mkRequest (js "gemini-2.5-flash-preview-tts") text (Some voiceName).

(** The buffer [speakText] gets to play, or the error its catch block
    receives: the synthesis, then [decode], then [decodeAudioData] at
    24000 Hz on one channel. *)
Definition speech (text : jsstring) (voiceName : Types.VoiceName) (reply : Reply)
    : Result AudioBuffer :=
  match synthesized text voiceName reply with
  | Throw e => Throw e
  | Return base64Audio =>
      match decode base64Audio with
      | Throw e => Throw e
      | Return bytes => decodeAudioData bytes (mkAudioContext 0 24000) 24000 1
      end
  end.

(** The record a submission appends. *)
Definition submitted_record (snap : Snapshot) (translation : jsstring) (o : Oracle)
    : JSValue :=
  Types.to_js (Types.mkTranslationResult (inputText snap) translation
                 (sourceLang snap) (targetLang snap) (now o)).

End Outcome.
Export Outcome.

(** ** Relations between the world before and the world after *)

Module Frames.

Definition related (R : World -> World -> Prop) (f : World -> World) : Prop :=
  forall w, R w (f w).

Definition relates (R : World -> World -> Prop) {A} (m : M World A) : Prop :=
  forall w, R w (snd (m w)).

(** Every storage key but the history key holds what it held. *)
Definition other_keys_kept (w w' : World) : Prop :=
  forall k, k <> vox_history -> localStorage w' !! k = localStorage w !! k.

(** Requests are only ever added, at the end. *)
Definition requests_extended (w w' : World) : Prop :=
  exists sent, requests w' = requests w ++ sent.

(** A node only moves forward: playing, then ending, then ended, with the
    cause it first got. *)
Definition state_advances (st st' : NodeState) : Prop :=
  match st, st' with
  | Playing, _ => True
  | Ending c, Ending c' => c = c'
  | Ending c, Ended c' => c = c'
  | Ended c, Ended c' => c = c'
  | _, _ => False
  end.

(** Every node is still there, at its index, with its buffer, its
    connection and its handler, in a state that is the same or later. *)
Definition nodes_advance (w w' : World) : Prop :=
  forall i n, nodes w !! i = Some n ->
    exists n', nodes w' !! i = Some n'
               /\ buffer n' = buffer n /\ connected n' = connected n
               /\ onended n' = onended n
               /\ state_advances (state n) (state n').

(** The audio context, once there, stays the same object and no other is
    constructed; where there is none yet, either none is constructed, or
    exactly one is, at 24 kHz, and it is the one in the ref. *)
Definition context_kept (w w' : World) : Prop :=
  match audioContextRef w with
  | Some ctx => audioContextRef w' = Some ctx /\ contexts w' = contexts w
  | None => (audioContextRef w' = None /\ contexts w' = contexts w)
            \/ (audioContextRef w' = Some (mkAudioContext (contexts w) 24000)
                /\ contexts w' = S (contexts w))
  end.

End Frames.
Export Frames.

(** ** The stored text of a history of records *)

Module Persisted.

(** The tokens of the text [JSON.stringify] writes for a record. *)
Definition record_tokens (r : Types.TranslationResult) : list Token :=
  [ TLBrace;
    TScalar (JStr (js "originalText")); TColon;
    TScalar (JStr (Types.originalText r)); TComma;
    TScalar (JStr (js "translatedText")); TColon;
    TScalar (JStr (Types.translatedText r)); TComma;
    TScalar (JStr (js "sourceLang")); TColon;
    TScalar (JStr (Types.sourceLang r)); TComma;
    TScalar (JStr (js "targetLang")); TColon;
    TScalar (JStr (Types.targetLang r)); TComma;
    TScalar (JStr (js "timestamp")); TColon;
    TScalar (JNum (decimal_of_Z (Types.timestamp r)));
    TRBrace ].

Fixpoint records_tokens (rs : list Types.TranslationResult) : list Token :=
  match rs with
  | [] => []
  | r :: rs' =>
      match rs' with
      | [] => record_tokens r
      | _ :: _ => record_tokens r ++ TComma :: records_tokens rs'
      end
  end.

(** A time stamp of at most 21 decimal digits: [Number::toString] writes
    such an integer digit by digit, without an exponent. *)
Definition plain_timestamp (r : Types.TranslationResult) : Prop :=
  (length (nat_digits (Z.to_N (Z.abs (Types.timestamp r)))) <= 21)%nat.

End Persisted.
Export Persisted.

(** ** A concrete run: the same text spoken twice in a row *)

Module Scenario.

Definition snapshot : Snapshot :=
  mkAppState (js "hi") (js "hola") (js "en") (js "es") (js "Zephyr")
             false false (JArr []) None.

(** The translation is "hola"; the audio payload decodes to the two
    samples 0 and 32767. *)
Definition answers : Oracle :=
  mkOracle (Resolved (mkResponse (Some (js "hola")) None))
           (Resolved (mkResponse None (Some (js "AAD/fw=="))))
           1700000000000.

(** One submission on a fresh page. *)
Definition submitted : World := handleTranslateAndSpeak snapshot answers (start ∅).

Definition once : World := speakText snapshot (js "hola") answers (start ∅).

Definition twice : World := speakText snapshot (js "hola") answers once.

End Scenario.

(** * Properties *)

(** ** The model at work *)

Section Examples.

Example parse_array :
  JSON_parse (js " [1, -2.50e1, null, true] ")
  = Some (JArr [JNum (mkDecimal false [1%N] 1); JNum (mkDecimal true [2%N; 5%N] 2);
                JNull; JBool true]).
Proof. vm_compute. reflexivity. Qed.

Example parse_trailing_comma : JSON_parse (js "[1,]") = None.
Proof. vm_compute. reflexivity. Qed.

Example parse_leading_zero : JSON_parse (js "01") = None.
Proof. vm_compute. reflexivity. Qed.

Example parse_empty_text : JSON_parse [] = None.
Proof. vm_compute. reflexivity. Qed.

Example stringify_numbers :
  JSON_stringify (JArr [JNum (decimal_of_Z 1700000000000); JNum (decimal_of_Z (-40));
                        JNum (mkDecimal false [1%N] 22); JNum (mkDecimal false [1%N] (-6));
                        JNum (mkDecimal false [1%N; 5%N] 1)])
  = js "[1700000000000,-40,1e+21,1e-7,1.5]".
Proof. vm_compute. reflexivity. Qed.

Example trim_spaces : trim (js "  hi there ") = js "hi there".
Proof. vm_compute. reflexivity. Qed.

Example decode_payload :
  decodeBase64ToBytes (js "AAD/fw==") = Return [Byte.x00; Byte.x00; Byte.xff; Byte.x7f].
Proof. vm_compute. reflexivity. Qed.

(** The history written by a submission is the one a restart reads
    back. *)
Example submitted_history_reloads :
  history (app (restart Scenario.submitted)) = history (app Scenario.submitted)
  /\ is_record_list (history (app Scenario.submitted)) = true
  /\ playing_count Scenario.submitted = 1%nat.
Proof. vm_compute. repeat split. Qed.

End Examples.

(** ** Strings *)

Section Trim.

Lemma trimStart_nil_iff (s : jsstring) :
  trimStart s = [] <-> forallb is_whitespace s = true.
Proof.
  induction s as [|c s IH]; simpl; [tauto|].
  destruct (is_whitespace c); simpl; [exact IH|].
  split; discriminate.
Qed.

Lemma trimStart_whitespace (s : jsstring) :
  forallb is_whitespace (trimStart s) = true -> trimStart s = [].
Proof.
  induction s as [|c s IH]; simpl; [reflexivity|].
  destruct (is_whitespace c) eqn:Hc; [exact IH|].
  simpl. rewrite Hc. discriminate.
Qed.

Lemma forallb_rev (f : N -> bool) (s : jsstring) :
  forallb f (rev s) = forallb f s.
Proof.
  induction s as [|c s IH]; simpl; [reflexivity|].
  rewrite forallb_app, IH. simpl. rewrite andb_true_r. apply andb_comm.
Qed.

(** [s.trim()] is the empty string exactly when [s] holds nothing but
    white space. *)
Lemma trim_nil_iff (s : jsstring) :
  trim s = [] <-> forallb is_whitespace s = true.
Proof.
  unfold trim, trimEnd. split.
  - intros H. apply trimStart_nil_iff, trimStart_whitespace.
    rewrite <- forallb_rev. apply trimStart_nil_iff.
    destruct (trimStart (rev (trimStart s))) as [|c t] eqn:E; [reflexivity|].
    simpl in H. apply app_eq_nil in H. destruct H as [_ H]. discriminate.
  - intros H. apply trimStart_nil_iff in H. rewrite H. reflexivity.
Qed.

Lemma eqb_refl (s : jsstring) : eqb s s = true.
Proof. unfold eqb. apply bool_decide_eq_true. reflexivity. Qed.

Lemma eqb_neq (a b : jsstring) : a <> b -> eqb a b = false.
Proof. intros H. unfold eqb. apply bool_decide_eq_false. exact H. Qed.

End Trim.

(** ** The translator *)

(** C3. When source and target language are the same code, [translateText]
    returns its input unchanged and sends no request: the world, with its
    list of requests, is the one it was called in, whatever the service
    would have answered. In particular "Hello" from "en" to "en" is
    "Hello". *)
Theorem translateText_same_language :
  (forall (text L : jsstring) (reply : Reply) (w : World),
      translateText record_request text L L reply w = (Return text, w))
  /\ (forall (reply : Reply) (w : World),
        translateText record_request (js "Hello") (js "en") (js "en") reply w
        = (Return (js "Hello"), w)).
Proof.
  assert (H : forall text L reply w,
             translateText record_request text L L reply w = (Return text, w)).
  { intros text L reply w. unfold translateText. rewrite eqb_refl. reflexivity. }
  split; [exact H|]. intros reply w. apply H.
Qed.

(** ** Guards of the handlers *)

(** C6. A submission whose text trims to the empty string does nothing:
    the world after [handleTranslateAndSpeak] is the world before, so the
    session state is the one it was (Idle stays Idle), the history and its
    persisted copy are untouched, and no request reaches the translation
    or the synthesis service. *)
Theorem submit_blank_is_noop (snap : Snapshot) (o : Oracle) (w : World) :
  trim (inputText snap) = [] ->
  handleTranslateAndSpeak snap o w = w
  /\ session_state (app (handleTranslateAndSpeak snap o w)) = session_state (app w)
  /\ history (app (handleTranslateAndSpeak snap o w)) = history (app w)
  /\ localStorage (handleTranslateAndSpeak snap o w) = localStorage w
  /\ requests (handleTranslateAndSpeak snap o w) = requests w.
Proof.
  intros H.
  assert (E : handleTranslateAndSpeak snap o w = w).
  { unfold handleTranslateAndSpeak. rewrite H. reflexivity. }
  rewrite E. repeat split.
Qed.

Lemma submit_blank_is_noop_witness :
  let snap := mkAppState (js "   ") [] (js "en") (js "es") (js "Zephyr")
                         false false (JArr []) None in
  let o := mkOracle (Rejected (mkError Error (js "offline")))
                    (Rejected (mkError Error (js "offline"))) 0 in
  handleTranslateAndSpeak snap o (start ∅) = start ∅.
Proof.
  intros snap o.
  exact (proj1 (submit_blank_is_noop snap o (start ∅) eq_refl)).
Defined.

(** C10. [speakText] on the empty string returns at once: the world is
    the one it was called in, so no synthesis request is sent, no source
    node is started or stopped, and [isPlaying] and every other cell keep
    their values. *)
Theorem speakText_empty_is_noop (snap : Snapshot) (o : Oracle) (w : World) :
  speakText snap [] o w = w.
Proof. reflexivity. Qed.

(** ** The persisted history *)

Section Storage.

Lemma start_unfold (storage : gmap jsstring jsstring) :
  start storage =
  let w := mkWorld initialState None None [] storage [] [] 0%nat in
  match storage !! vox_history with
  | Some saved =>
      if falsy saved then w
      else match JSON_parse saved with
           | Some v => setHistory v w
           | None => console_error (js "Failed to parse history") w
           end
  | None => w
  end.
Proof. reflexivity. Qed.

(** A persisted value that is valid JSON becomes the history as parsed,
    whatever its shape. *)
Lemma start_parsed (storage : gmap jsstring jsstring) (saved : jsstring) (v : JSValue) :
  storage !! vox_history = Some saved -> saved <> [] -> JSON_parse saved = Some v ->
  history (app (start storage)) = v.
Proof.
  intros Hs Hne Hp. rewrite start_unfold. simpl. rewrite Hs.
  destruct saved as [|c t]; [congruence|]. simpl falsy. cbv iota.
  rewrite Hp. reflexivity.
Qed.

Lemma start_absent (storage : gmap jsstring jsstring) :
  storage !! vox_history = None ->
  start storage = mkWorld initialState None None [] storage [] [] 0%nat.
Proof. intros H. rewrite start_unfold. simpl. rewrite H. reflexivity. Qed.

Lemma start_empty : start ∅ = mkWorld initialState None None [] ∅ [] [] 0%nat.
Proof. apply start_absent, lookup_empty. Qed.

End Storage.

(** C7. After [clearHistory], from any world, the history in memory is the
    empty array and the storage has no value under the key; a restart on
    that storage comes up in the initial state, whose history is empty. *)
Theorem clearHistory_then_restart (w : World) :
  history (app (clearHistory w)) = JArr []
  /\ localStorage (clearHistory w) !! vox_history = None
  /\ app (restart (clearHistory w)) = initialState
  /\ history (app (restart (clearHistory w))) = JArr [].
Proof.
  assert (Hs : localStorage (clearHistory w) !! vox_history = None).
  { unfold clearHistory, removeItem, with_storage. simpl. apply lookup_delete_eq. }
  assert (Hr : app (restart (clearHistory w)) = initialState).
  { unfold restart. rewrite (start_absent _ Hs). reflexivity. }
  split; [reflexivity|]. split; [exact Hs|]. split; [exact Hr|].
  rewrite Hr. reflexivity.
Qed.

(** C9, as amended. When [JSON.parse] throws on the value found under the
    key, the error is caught and logged: the application comes up in its
    initial state, with the empty history, and nothing else has changed. *)
Theorem start_unparsable (storage : gmap jsstring jsstring) (saved : jsstring) :
  storage !! vox_history = Some saved ->
  JSON_parse saved = None ->
  app (start storage) = initialState
  /\ history (app (start storage)) = JArr []
  /\ localStorage (start storage) = storage.
Proof.
  intros Hs Hp. rewrite start_unfold. simpl. rewrite Hs.
  destruct (falsy saved); [repeat split|].
  rewrite Hp. repeat split.
Qed.

Lemma start_unparsable_witness :
  history (app (start {[ vox_history := js "[{oops" ]})) = JArr [].
Proof.
  refine (proj1 (proj2 (start_unparsable {[ vox_history := js "[{oops" ]} (js "[{oops") _ _))).
  - apply lookup_singleton_eq.
  - vm_compute. reflexivity.
Defined.

(** C9, the claim as stated fails: the persisted text [null] is valid JSON
    and not a record list; no error is raised, and the history in memory
    after start-up is the value [null], not the empty array. *)
Lemma start_non_list_counterexample :
  let storage : gmap jsstring jsstring := {[ vox_history := js "null" ]} in
  storage !! vox_history = Some (js "null")
  /\ JSON_parse (js "null") = Some JNull
  /\ is_record_list JNull = false
  /\ history (app (start storage)) = JNull
  /\ history (app (start storage)) <> JArr [].
Proof.
  intros storage.
  assert (Hs : storage !! vox_history = Some (js "null")) by apply lookup_singleton_eq.
  assert (Hp : JSON_parse (js "null") = Some JNull) by (vm_compute; reflexivity).
  assert (Hh : history (app (start storage)) = JNull).
  { apply (start_parsed storage (js "null")); [exact Hs | discriminate | exact Hp]. }
  split; [exact Hs|]. split; [exact Hp|]. split; [reflexivity|].
  split; [exact Hh|]. rewrite Hh. discriminate.
Qed.

(** ** The history log *)

Section History.

Lemma saveToHistory_array (snap : Snapshot) (r : JSValue) (l : list JSValue) (w : World) :
  history snap = JArr l ->
  saveToHistory snap r w
  = (Return tt,
     setItem vox_history (JSON_stringify (JArr (take 10 (r :: l))))
       (setHistory (JArr (take 10 (r :: l))) w)).
Proof. intros H. unfold saveToHistory, bind, lift, exec. rewrite H. reflexivity. Qed.

Lemma take_app_take {A} (n : nat) (a b : list A) :
  take n (a ++ take n b) = take n (a ++ b).
Proof.
  rewrite !take_app, take_take. f_equal. f_equal. lia.
Qed.

Lemma lookup_setItem (k v : jsstring) (w : World) :
  localStorage (setItem k v w) !! k = Some v.
Proof. unfold setItem, with_storage. simpl. apply lookup_insert_eq. Qed.

(** The history after a run of appends, up to the cap. *)
Lemma appends_array (rs : list Types.TranslationResult) :
  forall (w : World) (l : list JSValue),
    history (app w) = JArr l ->
    exists w' l',
      appends rs w = (Return tt, w')
      /\ history (app w') = JArr l'
      /\ take 10 l' = take 10 (rev (List.map Types.to_js rs) ++ l)
      /\ (rs <> [] ->
          (length l' <= 10)%nat
          /\ localStorage w' !! vox_history = Some (JSON_stringify (JArr l'))).
Proof.
  induction rs as [|r rs IH]; intros w l Hw.
  - exists w, l. simpl. split; [reflexivity|]. split; [exact Hw|].
    split; [reflexivity|]. intros H. congruence.
  - simpl appends. rewrite (saveToHistory_array _ _ l) by exact Hw.
    set (w1 := setItem _ _ _).
    assert (H1 : history (app w1) = JArr (take 10 (Types.to_js r :: l))) by reflexivity.
    destruct (IH w1 _ H1) as (w' & l' & Hrun & Hh & Htake & Hne).
    exists w', l'. split; [exact Hrun|]. split; [exact Hh|]. split.
    + rewrite Htake, take_app_take. simpl List.map. simpl rev.
      rewrite <- app_assoc. reflexivity.
    + intros _. destruct rs as [|r' rs'].
      * simpl in Hrun. injection Hrun as <-. rewrite H1 in Hh. injection Hh as <-.
        split; [simpl; rewrite length_take; lia|]. apply lookup_setItem.
      * apply Hne. discriminate.
Qed.

End History.

(** C1. Take any world whose history is an array and any sequence of
    appends ending with record [r]. Every append succeeds; afterwards the
    history is the first ten entries of "the appended records, newest
    first, followed by the old entries", so its length is at most 10, [r]
    is at index 0 and what does not fit is cut from the tail; and the value
    stored under the key is the serialisation of exactly that history. *)
Theorem saveToHistory_capped
    (w : World) (l : list JSValue) (rs : list Types.TranslationResult)
    (r : Types.TranslationResult) :
  history (app w) = JArr l ->
  exists w',
    appends (rs ++ [r]) w = (Return tt, w')
    /\ history (app w')
       = JArr (take 10 (Types.to_js r :: rev (List.map Types.to_js rs) ++ l))
    /\ (exists l', history (app w') = JArr l' /\ (length l' <= 10)%nat
                   /\ l' !! 0%nat = Some (Types.to_js r))
    /\ localStorage w' !! vox_history = Some (JSON_stringify (history (app w'))).
Proof.
  intros Hw.
  destruct (appends_array (rs ++ [r]) w l Hw) as (w' & l' & Hrun & Hh & Htake & Hne).
  destruct Hne as [Hlen Hst]; [destruct rs; discriminate|].
  rewrite take_ge in Htake by exact Hlen.
  rewrite List.map_app, rev_app_distr in Htake. simpl in Htake.
  exists w'. split; [exact Hrun|]. split; [rewrite Hh, Htake; reflexivity|].
  split.
  - exists l'. split; [exact Hh|]. split; [exact Hlen|]. rewrite Htake. reflexivity.
  - rewrite Hh. exact Hst.
Qed.

Lemma saveToHistory_capped_witness :
  let r := Types.mkTranslationResult (js "hi") (js "hola") (js "en") (js "es") 1700000000000 in
  exists w',
    appends (replicate 11 r ++ [r]) (start ∅) = (Return tt, w')
    /\ history (app w') = JArr (replicate 10 (Types.to_js r)).
Proof.
  intros r.
  assert (H0 : history (app (start ∅)) = JArr []) by (rewrite start_empty; reflexivity).
  destruct (saveToHistory_capped (start ∅) [] (replicate 11 r) r H0)
    as (w' & Hrun & Hh & _).
  exists w'. split; [exact Hrun|]. rewrite Hh. reflexivity.
Defined.

(** ** Failure of the translation *)

(** C4. A submission with non-blank text whose translation request is
    rejected. The history and the whole storage are as before; the error
    cell holds the message of the rejection (or the default text when that
    message is empty), which is the Failed state; [isLoading] is back to
    false; the only request sent is the translation request, so the
    synthesis service is not called; no source node is created or
    stopped. *)
Theorem translation_failure_leaves_history
    (snap : Snapshot) (o : Oracle) (w : World) (e : JsError) :
  trim (inputText snap) <> [] ->
  sourceLang snap <> targetLang snap ->
  translateReply o = Rejected e ->
  let w' := handleTranslateAndSpeak snap o w in
  history (app w') = history (app w)
  /\ localStorage w' = localStorage w
  /\ error (app w') = Some (message_or_default e)
  /\ session_state (app w') = Failed
  /\ isLoading (app w') = false
  /\ (exists rq, requests w' = requests w ++ [rq] /\ voice rq = None
                 /\ model rq = js "gemini-3-flash-preview")
  /\ nodes w' = nodes w /\ sourceNodeRef w' = sourceNodeRef w.
Proof.
  intros Htext Hlang Hreply w'. subst w'.
  unfold handleTranslateAndSpeak.
  destruct (trim (inputText snap)) as [|c t] eqn:Et; [congruence|].
  simpl falsy. cbv iota.
  unfold try_catch, bind at 1, translateText.
  rewrite (eqb_neq _ _ Hlang), Hreply.
  unfold bind, generateContent, bind, exec, throw. simpl.
  repeat split. eexists. repeat split.
Qed.

Lemma translation_failure_leaves_history_witness :
  let snap := mkAppState (js "hi") [] (js "en") (js "es") (js "Zephyr")
                         false false (JArr []) None in
  let o := mkOracle (Rejected (mkError Error (js "503")))
                    (Resolved (mkResponse None (Some (js "AAD/fw==")))) 0 in
  history (app (handleTranslateAndSpeak snap o (start ∅))) = JArr []
  /\ error (app (handleTranslateAndSpeak snap o (start ∅))) = Some (js "503").
Proof.
  intros snap o.
  destruct (translation_failure_leaves_history snap o (start ∅) (mkError Error (js "503")))
    as (Hh & _ & He & _).
  - vm_compute. discriminate.
  - vm_compute. discriminate.
  - reflexivity.
  - split; [exact Hh | exact He].
Defined.

(** ** The audio decode pipeline *)

Section Decode.

Lemma samples_of_take (k : nat) :
  forall bytes : list Byte.byte,
    samples_of (take (2 * k) bytes) = take k (samples_of bytes).
Proof.
  induction k as [|k IH]; intros bytes; [reflexivity|].
  replace (2 * S k)%nat with (S (S (2 * k))) by lia.
  destruct bytes as [|lo [|hi rest]]; try reflexivity.
  simpl. f_equal. apply IH.
Qed.

Lemma nth_take_lt (j k : nat) (l : list Z) :
  (j < k)%nat -> nth j (take k l) 0 = nth j l 0.
Proof. intros H. rewrite !nth_lookup, lookup_take_lt by exact H. reflexivity. Qed.

(** A plane reads only the samples of the first [frames] frames. *)
Lemma plane_take (samples : list Z) (n frames c : nat) :
  (c < n)%nat ->
  plane (take (frames * n) samples) n frames c = plane samples n frames c.
Proof.
  intros Hc. unfold plane. apply List.map_ext_in. intros i Hi.
  apply in_seq in Hi. f_equal. apply nth_take_lt. nia.
Qed.

Lemma plane_length (samples : list Z) (n frames c : nat) :
  length (plane samples n frames c) = frames.
Proof. unfold plane. rewrite List.length_map, length_seq. reflexivity. Qed.

End Decode.

(** C5. For a channel count of at least 1 and [N] bytes: with [N < 2]
    (that is, 0 or 1) the result is the EmptyAudioError, in both cases;
    otherwise it is a buffer of [N / 2 / c] frames with [c] planes of
    exactly that many samples each, which for one channel and even [N] is
    [N / 2]; and the buffer is the one obtained from any byte sequence of
    the same length that agrees on the bytes of the complete frames, so
    bytes after the last complete frame do not matter and raise no
    error. *)
Theorem bytesToAudioBuffer_frames (bytes : list Byte.byte) (rate c : Z) :
  1 <= c ->
  let N := Z.of_nat (length bytes) in
  if N <? 2
  then bytesToAudioBuffer bytes rate c
       = Throw (mkError EmptyAudioError (js "EmptyAudioError"))
  else exists buf,
      bytesToAudioBuffer bytes rate c = Return buf
      /\ frameCount buf = N / 2 / c
      /\ Z.of_nat (length (channelData buf)) = c
      /\ Forall (fun p => Z.of_nat (length p) = N / 2 / c) (channelData buf)
      /\ (c = 1 -> Z.even N = true ->
          Forall (fun p => 2 * Z.of_nat (length p) = N) (channelData buf))
      /\ (forall bytes' : list Byte.byte,
             length bytes' = length bytes ->
             take (Z.to_nat (2 * c * (N / 2 / c))) bytes'
             = take (Z.to_nat (2 * c * (N / 2 / c))) bytes ->
             bytesToAudioBuffer bytes' rate c = Return buf).
Proof.
  intros Hc N. unfold bytesToAudioBuffer. fold N.
  destruct (N <? 2) eqn:HN; [reflexivity|].
  apply Z.ltb_ge in HN.
  assert (Hf : 0 <= N / 2 / c) by (apply Z.div_pos; [apply Z.div_pos|]; lia).
  eexists. split; [reflexivity|]. simpl frameCount. simpl channelData.
  split; [reflexivity|].
  split; [rewrite List.length_map, length_seq; lia|].
  assert (Hall : Forall (fun p => Z.of_nat (length p) = N / 2 / c)
            (List.map (plane (samples_of bytes) (Z.to_nat c) (Z.to_nat (N / 2 / c)))
                      (seq 0 (Z.to_nat c)))).
  { apply Forall_forall. intros p Hp. apply list_elem_of_In, in_map_iff in Hp.
    destruct Hp as (ch & <- & _). rewrite plane_length. lia. }
  split; [exact Hall|]. split.
  - intros -> Heven. apply Z.even_spec in Heven. destruct Heven as [m Hm].
    eapply Forall_impl; [exact Hall|]. intros p Hp. simpl in Hp. rewrite Hp.
    rewrite Z.div_1_r, Hm, (Z.mul_comm 2 m), Z.div_mul by lia. lia.
  - intros bytes' Hlen Htake. rewrite Hlen. fold N.
    replace (N <? 2) with false by (symmetry; apply Z.ltb_ge; exact HN).
    f_equal. f_equal. apply List.map_ext_in. intros ch Hch. apply in_seq in Hch.
    set (n := Z.to_nat c) in *. set (fr := Z.to_nat (N / 2 / c)) in *.
    rewrite <- (plane_take (samples_of bytes')), <- (plane_take (samples_of bytes)) by lia.
    rewrite <- !samples_of_take.
    replace (2 * (fr * n))%nat with (Z.to_nat (2 * c * (N / 2 / c))) by (subst n fr; nia).
    rewrite Htake. reflexivity.
Qed.

Lemma bytesToAudioBuffer_frames_witness :
  exists buf,
    bytesToAudioBuffer [Byte.x01; Byte.x00; Byte.xff; Byte.x7f; Byte.x80] 24000 2 = Return buf
    /\ frameCount buf = 1.
Proof.
  destruct (bytesToAudioBuffer_frames
              [Byte.x01; Byte.x00; Byte.xff; Byte.x7f; Byte.x80] 24000 2 ltac:(lia))
    as (buf & Hrun & Hf & _).
  exists buf. split; [exact Hrun | exact Hf].
Defined.

(** ** Playback sessions *)

Create HintDb pres discriminated.

Section Preservation.

(** A property of worlds that looks at the source nodes and the ref
    only, and that starting a playback keeps. *)
Variable P : World -> Prop.
Hypothesis P_audio : forall w w', same_audio w w' -> P w -> P w'.
Hypothesis P_play : forall buf, preserved P (play buf).

Lemma preserved_same (f : World -> World) :
  (forall w, same_audio w (f w)) -> preserved P f.
Proof. intros Hf w Hw. apply (P_audio w); [apply Hf | exact Hw]. Qed.

Lemma preserves_ret {A} (a : A) : preserves P (ret a).
Proof. intros w Hw. exact Hw. Qed.

Lemma preserves_throw {A} (e : JsError) : preserves P (@throw World A e).
Proof. intros w Hw. exact Hw. Qed.

Lemma preserves_lift {A} (r : Result A) : preserves P (lift r).
Proof. intros w Hw. exact Hw. Qed.

Lemma preserves_exec (f : World -> World) : preserved P f -> preserves P (exec f).
Proof. intros Hf w Hw. apply Hf, Hw. Qed.

Lemma preserves_bind {A B} (m : M World A) (k : A -> M World B) :
  preserves P m -> (forall a, preserves P (k a)) -> preserves P (bind m k).
Proof.
  intros Hm Hk w Hw. unfold bind. specialize (Hm w Hw).
  destruct (m w) as [[a|e] w1]; simpl in *; [apply Hk, Hm | exact Hm].
Qed.

Lemma preserved_try_catch (m : M World unit) (h : JsError -> World -> World) :
  preserves P m -> (forall e, preserved P (h e)) -> preserved P (try_catch m h).
Proof.
  intros Hm Hh w Hw. unfold try_catch. specialize (Hm w Hw).
  destruct (m w) as [[a|e] w1]; simpl in *; [exact Hm | apply Hh, Hm].
Qed.

Lemma preserved_compose (f g : World -> World) :
  preserved P f -> preserved P g -> preserved P (fun w => f (g w)).
Proof. intros Hf Hg w Hw. apply Hf, Hg, Hw. Qed.

Lemma preserved_with_app (f : AppState -> AppState) : preserved P (with_app f).
Proof. apply preserved_same. intros w. split; reflexivity. Qed.

Lemma preserved_with_storage f : preserved P (with_storage f).
Proof. apply preserved_same. intros w. split; reflexivity. Qed.

Lemma preserved_record_request (rq : Request) : preserved P (record_request rq).
Proof. apply preserved_same. intros w. split; reflexivity. Qed.

Lemma preserves_ensureAudioContext : preserves P ensureAudioContext.
Proof.
  intros w Hw. unfold ensureAudioContext.
  destruct (audioContextRef w); simpl; [exact Hw|].
  apply (P_audio w); [split; reflexivity | exact Hw].
Qed.

Hint Resolve preserves_ret preserves_throw preserves_lift preserves_exec
  preserves_bind preserved_try_catch preserved_with_app preserved_with_storage
  preserved_record_request preserves_ensureAudioContext preserved_compose : pres.

Lemma preserves_generateContent (rq : Request) (reply : Reply) :
  preserves P (generateContent record_request rq reply).
Proof. unfold generateContent. destruct reply; auto with pres. Qed.

Hint Resolve preserves_generateContent : pres.

Lemma preserves_translateText (text src tgt : jsstring) (reply : Reply) :
  preserves P (translateText record_request text src tgt reply).
Proof. unfold translateText. destruct (eqb src tgt); auto with pres. Qed.

Lemma preserves_generateSpeech (text voiceName : jsstring) (reply : Reply) :
  preserves P (generateSpeech record_request text voiceName reply).
Proof.
  unfold generateSpeech. apply preserves_bind; [auto with pres|].
  intros r. destruct (inlineData r) as [b|]; [destruct (falsy b)|]; auto with pres.
Qed.

Lemma preserves_saveToHistory (snap : Snapshot) (r : JSValue) :
  preserves P (saveToHistory snap r).
Proof.
  unfold saveToHistory, setHistory, setItem. auto 10 with pres.
Qed.

Hint Resolve preserves_translateText preserves_generateSpeech
  preserves_saveToHistory : pres.

Lemma preserved_speakText (snap : Snapshot) (text : jsstring) (o : Oracle) :
  preserved P (speakText snap text o).
Proof.
  intros w Hw. unfold speakText. destruct (falsy text); [exact Hw|].
  apply preserved_try_catch.
  - repeat (apply preserves_bind; [auto with pres|]; intros ?).
    apply preserves_exec, P_play.
  - intros e. unfold setIsPlaying, setError. auto with pres.
  - apply preserved_with_app, Hw.
Qed.

Lemma preserved_handleTranslateAndSpeak (snap : Snapshot) (o : Oracle) :
  preserved P (handleTranslateAndSpeak snap o).
Proof.
  intros w Hw. unfold handleTranslateAndSpeak.
  destruct (falsy (trim (inputText snap))); [exact Hw|].
  apply preserved_with_app, preserved_try_catch.
  - repeat (apply preserves_bind; [unfold setTranslatedText; auto with pres|]; intros ?).
    apply preserves_exec, preserved_speakText.
  - intros e. apply preserved_with_app.
  - apply preserved_with_app, preserved_with_app, Hw.
Qed.

Lemma preserved_clearHistory : preserved P clearHistory.
Proof.
  intros w Hw. apply preserved_with_storage, preserved_with_app, Hw.
Qed.

End Preservation.

Section AudioInvariant.

Lemma audio_inv_same (w w' : World) : same_audio w w' -> audio_inv w -> audio_inv w'.
Proof. intros [Hn Hr]. unfold audio_inv. rewrite Hn, Hr. trivial. Qed.

Lemma is_playing_stop (n : SourceNode) : is_playing (WebAudio.stop n) = false.
Proof. unfold WebAudio.stop, is_playing. destruct (state n) eqn:E; simpl; rewrite ?E; reflexivity. Qed.

Lemma onended_stop (n : SourceNode) : onended (WebAudio.stop n) = onended n.
Proof. unfold WebAudio.stop. destruct (state n); reflexivity. Qed.

Lemma filter_not_playing (ns : list SourceNode) :
  Forall (fun m => is_playing m = false) ns -> List.filter is_playing ns = [].
Proof.
  induction 1 as [|m ns Hm _ IH]; simpl; [reflexivity|]. rewrite Hm. exact IH.
Qed.

Lemma audio_inv_count (w : World) : audio_inv w -> (playing_count w <= 1)%nat.
Proof.
  intros [_ [[Hn _]|(ns & n & Hn & Hns & _)]]; unfold playing_count; rewrite Hn.
  - simpl. lia.
  - rewrite List.filter_app, (filter_not_playing ns Hns). simpl.
    destruct (is_playing n); simpl; lia.
Qed.

(** The nodes after [play]: the node under the ref stopped, the others as
    they were, and the new node at the end. *)
Lemma play_nodes (buf : AudioBuffer) (w : World) :
  audio_inv w ->
  exists older,
    nodes (play buf w)
    = older ++ [mkSourceNode buf true (Some SetIsPlayingFalse) Playing]
    /\ length older = length (nodes w)
    /\ Forall (fun m => is_playing m = false) older
    /\ Forall (fun m => onended m = Some SetIsPlayingFalse) older
    /\ sourceNodeRef (play buf w) = Some (length older)
    /\ (forall i m, nodes w !! i = Some m -> state m = Playing ->
                    state <$> older !! i = Some (Ending StopCalled)).
Proof.
  intros [Hh [[Hn Hr]|(ns & n & Hn & Hns & Hr)]]; unfold play, stopCurrent; rewrite Hr.
  - exists []. simpl. rewrite Hn. repeat split; try constructor.
    intros i m Hi. rewrite lookup_nil in Hi. discriminate.
  - exists (ns ++ [WebAudio.stop n]).
    assert (Ha : alter WebAudio.stop (length ns) (nodes w) = ns ++ [WebAudio.stop n]).
    { rewrite Hn, alter_app_r_alt by lia. rewrite Nat.sub_diag. reflexivity. }
    simpl. rewrite Ha, Hn, !length_app. simpl. rewrite Hn in Hh.
    apply Forall_app in Hh. destruct Hh as [Hh1 Hh2].
    split; [reflexivity|]. split; [reflexivity|].
    split; [apply Forall_app; split; [exact Hns|]; repeat constructor; apply is_playing_stop|].
    split; [apply Forall_app; split; [exact Hh1|]; repeat constructor;
            rewrite onended_stop; inversion Hh2; assumption|].
    split; [reflexivity|].
    intros i m Hi Hm. destruct (decide (i < length ns)%nat) as [Hlt|Hge].
    + rewrite lookup_app_l in Hi by exact Hlt.
      rewrite Forall_forall in Hns. specialize (Hns m (list_elem_of_lookup_2 _ _ _ Hi)).
      unfold is_playing in Hns. rewrite Hm in Hns. discriminate.
    + apply lookup_lt_Some in Hi as Hlen. rewrite length_app in Hlen. simpl in Hlen.
      assert (i = length ns) as -> by lia.
      rewrite list_lookup_middle in Hi by reflexivity. injection Hi as <-.
      rewrite list_lookup_middle by reflexivity. simpl.
      unfold WebAudio.stop. rewrite Hm. reflexivity.
Qed.

Lemma audio_inv_play (buf : AudioBuffer) : preserved audio_inv (play buf).
Proof.
  intros w Hw. destruct (play_nodes buf w Hw) as (older & Hn & _ & Hp & Hh & Hr & _).
  split.
  - rewrite Hn. apply Forall_app. split; [exact Hh|]. repeat constructor.
  - right. exists older, (mkSourceNode buf true (Some SetIsPlayingFalse) Playing).
    repeat split; assumption.
Qed.

(** Replacing a node by one with the same handler that plays only if the
    old one did. *)
Lemma audio_inv_update (w : World) (i : nat) (m m' : SourceNode) :
  nodes w !! i = Some m ->
  onended m' = onended m ->
  (is_playing m = false -> is_playing m' = false) ->
  audio_inv w ->
  audio_inv (with_nodes (sourceNodeRef w) (<[i := m']> (nodes w)) w).
Proof.
  intros Hi Ho Hp [Hh Hs]. split; simpl.
  - apply Forall_insert; [exact Hh|]. rewrite Ho.
    rewrite Forall_forall in Hh. apply Hh. eapply list_elem_of_lookup_2, Hi.
  - destruct Hs as [[Hn _]|(ns & n & Hn & Hns & Hr)].
    + rewrite Hn, lookup_nil in Hi. discriminate.
    + right. rewrite Hn in *. destruct (decide (i < length ns)%nat) as [Hlt|Hge].
      * exists (<[i := m']> ns), n. rewrite insert_app_l by exact Hlt.
        rewrite length_insert. split; [reflexivity|]. split; [|exact Hr].
        apply Forall_insert; [exact Hns|]. apply Hp.
        rewrite lookup_app_l in Hi by exact Hlt.
        rewrite Forall_forall in Hns. apply Hns. eapply list_elem_of_lookup_2, Hi.
      * apply lookup_lt_Some in Hi as Hlen. rewrite length_app in Hlen. simpl in Hlen.
        assert (i = length ns) as -> by lia.
        exists ns, m'. rewrite insert_app_r_alt, Nat.sub_diag by lia.
        repeat split; assumption.
Qed.

Lemma audio_inv_reachEnd (i : nat) : preserved audio_inv (reachEnd i).
Proof.
  intros w Hw. unfold reachEnd.
  destruct (nodes w !! i) as [n|] eqn:Hi; [|exact Hw].
  destruct (state n) eqn:Hs; try exact Hw.
  apply (audio_inv_update w i n); [exact Hi | reflexivity | reflexivity | exact Hw].
Qed.

Lemma audio_inv_dispatchEnded (i : nat) : preserved audio_inv (dispatchEnded i).
Proof.
  intros w Hw. unfold dispatchEnded.
  destruct (nodes w !! i) as [n|] eqn:Hi; [|exact Hw].
  destruct (state n) eqn:Hs; try exact Hw.
  eapply audio_inv_same;
    [|apply (audio_inv_update w i n (with_state (Ended cause) n));
      [exact Hi | reflexivity | reflexivity | exact Hw]].
  unfold run_handler. destruct (onended n) as [[]|]; split; reflexivity.
Qed.

Lemma audio_inv_start (storage : gmap jsstring jsstring) : audio_inv (start storage).
Proof.
  apply (audio_inv_same (mkWorld initialState None None [] storage [] [] 0%nat)).
  - rewrite start_unfold. simpl.
    destruct (storage !! vox_history) as [saved|]; [|split; reflexivity].
    destruct (falsy saved); [split; reflexivity|].
    destruct (JSON_parse saved); split; reflexivity.
  - split; [constructor|]. left. split; reflexivity.
Qed.

Lemma audio_inv_step (w w' : World) : step w w' -> audio_inv w -> audio_inv w'.
Proof.
  intros Hstep Hw. destruct Hstep.
  - apply preserved_handleTranslateAndSpeak;
      [exact audio_inv_same | exact audio_inv_play | exact Hw].
  - apply preserved_speakText;
      [exact audio_inv_same | exact audio_inv_play | exact Hw].
  - apply preserved_clearHistory; [exact audio_inv_same | exact Hw].
  - apply audio_inv_reachEnd, Hw.
  - apply audio_inv_dispatchEnded, Hw.
  - apply (audio_inv_same w); [split; reflexivity | exact Hw].
  - apply (audio_inv_same w); [split; reflexivity | exact Hw].
  - apply (audio_inv_same w); [split; reflexivity | exact Hw].
  - apply preserves_ensureAudioContext; [exact audio_inv_same | exact Hw].
  - apply audio_inv_play, Hw.
Qed.

Lemma reachable_audio_inv (w : World) : reachable w -> audio_inv w.
Proof.
  intros [storage Hrun].
  revert w Hrun. apply (rtc_ind_r audio_inv); [apply audio_inv_start|].
  intros y z _ Hstep Hy. exact (audio_inv_step y z Hstep Hy).
Qed.

End AudioInvariant.

Section Playback.

Lemma play_same_audio (buf : AudioBuffer) (w w0 : World) :
  same_audio w w0 -> same_audio (play buf w) (play buf w0).
Proof.
  intros [Hn Hr]. unfold play, stopCurrent, startSource. rewrite Hr.
  destruct (sourceNodeRef w); simpl; rewrite Hn; split; reflexivity.
Qed.

(** [speakText] touches the source nodes through [play] only. *)
Lemma speakText_audio (snap : Snapshot) (text : jsstring) (o : Oracle) (w : World) :
  same_audio w (speakText snap text o w)
  \/ exists buf, same_audio (play buf w) (speakText snap text o w).
Proof.
  unfold speakText. destruct (falsy text); [left; split; reflexivity|].
  unfold try_catch, bind, generateSpeech, generateContent, bind, exec, lift.
  destruct (speechReply o) as [e|r]; simpl; [left; split; reflexivity|].
  destruct (inlineData r) as [b|]; simpl; [|left; split; reflexivity].
  destruct (falsy b); simpl; [left; split; reflexivity|].
  unfold ensureAudioContext.
  destruct (audioContextRef w) as [ctx|] eqn:Hc; simpl; rewrite ?Hc; simpl;
    (destruct (decode b) as [bytes|e]; simpl; [|left; split; reflexivity]);
    (destruct (decodeAudioData bytes _ 24000 1) as [buf|e]; simpl;
     [|left; split; reflexivity]);
    right; exists buf; apply play_same_audio; split; reflexivity.
Qed.

Lemma node_state_Some (i : nat) (w : World) (st : NodeState) :
  node_state i w = Some st <-> exists m, nodes w !! i = Some m /\ state m = st.
Proof.
  unfold node_state. destruct (nodes w !! i) as [m|]; simpl; split.
  - intros [= <-]. exists m. split; reflexivity.
  - intros (m' & [= <-] & <-). reflexivity.
  - discriminate.
  - intros (m' & Hm & _). discriminate.
Qed.

End Playback.

(** C2, as amended. In every reachable world at most one source node is playing.
    Starting a playback there (lines 93-103 of [speakText]) leaves exactly
    one playing node, the new one, which the ref then points to; a node
    that was playing before has had [stop()] called on it. And [speakText]
    changes the source nodes in no other way: after it they are either as
    before or as [play] leaves them. *)
Theorem playback_is_exclusive (w : World) (buf : AudioBuffer) :
  reachable w ->
  (playing_count w <= 1)%nat
  /\ playing_count (play buf w) = 1%nat
  /\ node_state (length (nodes w)) (play buf w) = Some Playing
  /\ sourceNodeRef (play buf w) = Some (length (nodes w))
  /\ (forall i, node_state i w = Some Playing ->
                node_state i (play buf w) = Some (Ending StopCalled))
  /\ (forall snap text o,
         same_audio w (speakText snap text o w)
         \/ exists buf', same_audio (play buf' w) (speakText snap text o w)).
Proof.
  intros Hreach. apply reachable_audio_inv in Hreach as Hinv.
  destruct (play_nodes buf w Hinv) as (older & Hn & Hlen & Hp & _ & Hr & Hstop).
  split; [apply audio_inv_count, Hinv|].
  split; [unfold playing_count; rewrite Hn, List.filter_app, (filter_not_playing _ Hp);
          reflexivity|].
  split; [unfold node_state; rewrite Hn, <- Hlen, list_lookup_middle by reflexivity;
          reflexivity|].
  split; [rewrite Hr, Hlen; reflexivity|].
  split; [|intros snap text o; apply speakText_audio].
  intros i Hi. apply node_state_Some in Hi. destruct Hi as (m & Hi & Hm).
  unfold node_state. rewrite Hn, lookup_app_l.
  - exact (Hstop i m Hi Hm).
  - rewrite Hlen. eapply lookup_lt_Some, Hi.
Qed.

(** The handler installed at line 101 is the same closure on every node
    and does not look at why the node ended. In every reachable world,
    when the platform dispatches the [ended] event of a node, whichever
    way the node came to its end (its buffer ran out, or [stop()] was
    called on it by a later playback), [isPlaying] becomes false and the
    node is done: the handler of every pre-empted session clears the
    flag. *)
Theorem ended_clears_playing_flag (w : World) (i : nat) (cause : EndCause) :
  reachable w ->
  node_state i w = Some (Ending cause) ->
  isPlaying (app (dispatchEnded i w)) = false
  /\ node_state i (dispatchEnded i w) = Some (Ended cause).
Proof.
  intros Hreach Hi. apply reachable_audio_inv in Hreach. destruct Hreach as [Hh _].
  apply node_state_Some in Hi. destruct Hi as (m & Hi & Hm).
  rewrite Forall_forall in Hh. specialize (Hh m (list_elem_of_lookup_2 _ _ _ Hi)).
  unfold dispatchEnded. rewrite Hi, Hm, Hh. simpl. split; [reflexivity|].
  unfold node_state. simpl. rewrite list_lookup_insert_eq by (eapply lookup_lt_Some, Hi).
  reflexivity.
Qed.

Section ScenarioRuns.

Lemma reachable_once : reachable Scenario.once.
Proof. exists ∅. eapply rtc_r; [apply rtc_refl | apply step_speak]. Qed.

Lemma reachable_twice : reachable Scenario.twice.
Proof.
  destruct reachable_once as [storage Hrun]. exists storage.
  eapply rtc_r; [exact Hrun | apply step_speak].
Qed.

End ScenarioRuns.

Lemma playback_is_exclusive_witness :
  playing_count Scenario.once = 1%nat
  /\ playing_count (play (mkAudioBuffer 24000 0 [[]]) Scenario.once) = 1%nat
  /\ node_state 0 (play (mkAudioBuffer 24000 0 [[]]) Scenario.once)
     = Some (Ending StopCalled).
Proof.
  destruct (playback_is_exclusive Scenario.once (mkAudioBuffer 24000 0 [[]]) reachable_once)
    as (_ & Hone & _ & _ & Hstop & _).
  split; [vm_compute; reflexivity|]. split; [exact Hone|].
  apply Hstop. vm_compute. reflexivity.
Defined.

Lemma ended_clears_playing_flag_witness :
  isPlaying (app (dispatchEnded 0 Scenario.twice)) = false.
Proof.
  refine (proj1 (ended_clears_playing_flag Scenario.twice 0 StopCalled reachable_twice _)).
  vm_compute. reflexivity.
Defined.

(** C8. The code at the failing input. The same text is spoken twice on a
    fresh page, the second time while the first node is still playing. The
    second playback calls [stop()] on the first node (line 95), whose
    [ended] event is queued because of that stop; when it is dispatched,
    the handler of line 101 runs and clears [isPlaying] although the
    second node is still playing. The notification that C8 reserves for
    natural completion fires for a session that was stopped by a newer
    one, and the flag set at line 75 for the new playback is lost. *)
Lemma preempted_session_clears_playing_flag :
  reachable Scenario.twice
  /\ node_state 0 Scenario.twice = Some (Ending StopCalled)
  /\ node_state 1 Scenario.twice = Some Playing
  /\ isPlaying (app Scenario.twice) = true
  /\ step Scenario.twice (dispatchEnded 0 Scenario.twice)
  /\ isPlaying (app (dispatchEnded 0 Scenario.twice)) = false
  /\ node_state 1 (dispatchEnded 0 Scenario.twice) = Some Playing.
Proof.
  split; [exact reachable_twice|].
  split; [vm_compute; reflexivity|].
  split; [vm_compute; reflexivity|].
  split; [vm_compute; reflexivity|].
  split; [apply step_dispatch|].
  split; vm_compute; reflexivity.
Qed.

(** C2, the claim as stated fails. The same text is spoken twice. Every
    source is connected to the destination when it is created (line 100)
    and nothing ever disconnects one: after the second playback has
    started, two sources are connected to the output at the same time,
    though only one of them is playing. *)
Lemma connected_sources_counterexample :
  reachable Scenario.twice
  /\ List.map connected (nodes Scenario.twice) = [true; true]
  /\ length (List.filter connected (nodes Scenario.twice)) = 2%nat
  /\ playing_count Scenario.twice = 1%nat.
Proof.
  split; [exact reachable_twice|].
  split; [vm_compute; reflexivity|].
  split; vm_compute; reflexivity.
Qed.

(** * Further properties of the code *)

(** ** The two service calls *)

Section ServiceRuns.

Context {S : Type} (record : Request -> S -> S).

(** What a call resolves to does not depend on the state it records its
    request in. *)
Lemma translateText_run (text src tgt : jsstring) (reply : Reply) (s : S) :
  translateText record text src tgt reply s
  = (translated text src tgt reply,
     if eqb src tgt then s else record (translation_request text src tgt) s).
Proof.
  unfold translated, translateText. destruct (eqb src tgt); [reflexivity|].
  unfold bind, generateContent, bind, exec. destruct reply; reflexivity.
Qed.

Lemma generateSpeech_run (text voiceName : jsstring) (reply : Reply) (s : S) :
  generateSpeech record text voiceName reply s
  = (synthesized text voiceName reply, record (speech_request text voiceName) s).
Proof.
  unfold synthesized, generateSpeech, bind, generateContent, bind, exec.
  destruct reply as [e|r]; [reflexivity|]. simpl.
  destruct (inlineData r) as [b|]; [destruct (falsy b)|]; reflexivity.
Qed.

End ServiceRuns.

Section ServiceResults.

Lemma translated_cases (text src tgt : jsstring) (reply : Reply) :
  translated text src tgt reply
  = if eqb src tgt then Return text
    else match reply with
         | Rejected e => Throw e
         | Resolved r => Return (or_empty (Service.text r))
         end.
Proof.
  unfold translated, translateText. destruct (eqb src tgt); [reflexivity|].
  unfold bind, generateContent, bind, exec. destruct reply; reflexivity.
Qed.

Lemma synthesized_cases (text voiceName : jsstring) (reply : Reply) :
  synthesized text voiceName reply
  = match reply with
    | Rejected e => Throw e
    | Resolved r =>
        match inlineData r with
        | Some b => if falsy b then Throw (mkError Error (js "No audio data returned"))
                    else Return b
        | None => Throw (mkError Error (js "No audio data returned"))
        end
    end.
Proof.
  unfold synthesized, generateSpeech, bind, generateContent, bind, exec.
  destruct reply as [e|r]; [reflexivity|]. simpl.
  destruct (inlineData r) as [b|]; [destruct (falsy b)|]; reflexivity.
Qed.

Lemma falsy_false_iff (s : jsstring) : falsy s = false <-> s <> [].
Proof. destruct s; simpl; split; congruence. Qed.

End ServiceResults.

(** X1. For two different language codes [translateText] sends exactly
    one request, the translation prompt built from the text and the two
    codes, and changes nothing else. It rejects only with the error the
    service rejected with; on any response it resolves, to the empty
    string when the response carries no text. *)
Theorem translateText_one_request (text src tgt : jsstring) (reply : Reply) (w : World) :
  src <> tgt ->
  let out := translateText record_request text src tgt reply w in
  snd out = record_request (translation_request text src tgt) w
  /\ requests (snd out) = requests w ++ [translation_request text src tgt]
  /\ (forall e, fst out = Throw e <-> reply = Rejected e)
  /\ (forall r, reply = Resolved r ->
        fst out = Return (match Service.text r with Some t => t | None => [] end)).
Proof.
  intros Hne out. subst out. rewrite translateText_run, translated_cases.
  rewrite (eqb_neq _ _ Hne). simpl.
  split; [reflexivity|]. split; [reflexivity|]. split.
  - intros e. destruct reply as [e'|r]; split; intros H; congruence.
  - intros r ->. reflexivity.
Qed.

Lemma translateText_one_request_witness :
  fst (translateText record_request (js "hi") (js "en") (js "es")
         (Resolved (mkResponse None None)) (start ∅)) = Return [].
Proof.
  refine (proj2 (proj2 (proj2 (translateText_one_request (js "hi") (js "en") (js "es")
            (Resolved (mkResponse None None)) (start ∅) _))) _ eq_refl).
  vm_compute. discriminate.
Defined.

(** X2. [generateSpeech] always sends exactly one request, carrying the
    text and the voice. When it resolves, the payload is the inline data
    of the response and is not empty; a response without inline data, or
    with empty inline data, makes it reject with "No audio data
    returned". *)
Theorem generateSpeech_payload (text voiceName : jsstring) (reply : Reply) (w : World) :
  let out := generateSpeech record_request text voiceName reply w in
  requests (snd out) = requests w ++ [speech_request text voiceName]
  /\ (forall b, fst out = Return b <->
                b <> [] /\ exists r, reply = Resolved r /\ inlineData r = Some b)
  /\ (forall r, reply = Resolved r -> inlineData r = None \/ inlineData r = Some [] ->
                fst out = Throw (mkError Error (js "No audio data returned"))).
Proof.
  intros out. subst out. rewrite generateSpeech_run, synthesized_cases. simpl.
  split; [reflexivity|]. split.
  - intros b. destruct reply as [e|r].
    + split; [discriminate|]. intros (_ & r & Hr & _). discriminate.
    + destruct (inlineData r) as [b'|] eqn:Hd.
      * destruct (falsy b') eqn:Hf.
        -- split; [discriminate|]. intros (Hb & r' & [= <-] & Hd').
           rewrite Hd in Hd'. injection Hd' as ->. destruct b; [congruence|discriminate].
        -- split.
           ++ intros [= <-]. split; [apply falsy_false_iff, Hf|]. exists r. split; trivial.
           ++ intros (_ & r' & [= <-] & Hd'). congruence.
      * split; [discriminate|]. intros (_ & r' & [= <-] & Hd'). congruence.
  - intros r -> [Hd|Hd]; rewrite Hd; reflexivity.
Qed.

(** ** [speakText] and [handleTranslateAndSpeak], path by path *)

Section HandlerRuns.

(** The catch block of [speakText]. *)
Lemma speakText_run (snap : Snapshot) (text : jsstring) (o : Oracle) (w : World) :
  text <> [] ->
  let w1 := record_request (speech_request text (selectedVoice snap)) (setIsPlaying true w) in
  let failed e w' :=
    setIsPlaying false (setError (Some (js "Speech synthesis failed: " ++ message e)) w') in
  speakText snap text o w
  = match synthesized text (selectedVoice snap) (speechReply o) with
    | Throw e => failed e w1
    | Return b =>
        let w2 := snd (ensureAudioContext w1) in
        match decode b with
        | Throw e => failed e w2
        | Return bytes =>
            match bytesToAudioBuffer bytes 24000 1 with
            | Throw e => failed e w2
            | Return buf => play buf w2
            end
        end
    end.
Proof.
  intros Ht w1 failed. unfold speakText.
  replace (falsy text) with false by (symmetry; apply falsy_false_iff, Ht).
  unfold try_catch, bind at 1. rewrite generateSpeech_run. fold w1.
  destruct (synthesized text (selectedVoice snap) (speechReply o)) as [b|e]; [|reflexivity].
  unfold bind at 1. destruct (ensureAudioContext w1) as [[ctx|e] w2] eqn:Hc.
  - simpl. unfold bind, lift, exec, decodeAudioData.
    destruct (decode b) as [bytes|e]; [|reflexivity].
    destruct (bytesToAudioBuffer bytes 24000 1); reflexivity.
  - unfold ensureAudioContext in Hc. destruct (audioContextRef w1); discriminate.
Qed.

Lemma handleTranslateAndSpeak_run (snap : Snapshot) (o : Oracle) (w : World) :
  trim (inputText snap) <> [] ->
  let w1 := setError None (setIsLoading true w) in
  let w1' := if eqb (sourceLang snap) (targetLang snap) then w1
             else record_request
                    (translation_request (inputText snap) (sourceLang snap) (targetLang snap))
                    w1 in
  handleTranslateAndSpeak snap o w
  = setIsLoading false
      match translated (inputText snap) (sourceLang snap) (targetLang snap)
                       (translateReply o) with
      | Throw e => setError (Some (message_or_default e)) w1'
      | Return translation =>
          let w2 := setTranslatedText translation w1' in
          match spread (history snap) with
          | Throw e => setError (Some (message_or_default e)) w2
          | Return rest =>
              let newHistory :=
                JArr (take 10
                        (Types.to_js (Types.mkTranslationResult (inputText snap) translation
                                        (sourceLang snap) (targetLang snap) (now o))
                         :: rest)) in
              speakText snap translation o
                (setItem vox_history (JSON_stringify newHistory) (setHistory newHistory w2))
          end
      end.
Proof.
  intros Ht w1 w1'. unfold handleTranslateAndSpeak.
  replace (falsy (trim (inputText snap))) with false
    by (symmetry; apply falsy_false_iff, Ht).
  f_equal. unfold try_catch, bind at 1. rewrite translateText_run. fold w1 w1'.
  destruct (translated _ _ _ _) as [translation|e]; [|reflexivity].
  unfold bind at 1, exec at 1. unfold bind at 1, saveToHistory, bind at 1, lift.
  destruct (spread (history snap)) as [rest|e]; reflexivity.
Qed.

End HandlerRuns.



(** Reads a field of a world built by the setters, leaving the strings
    alone. *)
Ltac fields :=
  cbn [app requests localStorage nodes sourceNodeRef audioContextRef console contexts
       inputText translatedText sourceLang targetLang selectedVoice isLoading
       isPlaying history error with_app with_storage with_nodes
       setIsPlaying setError setIsLoading setTranslatedText setHistory
       setInputText setSourceLang setTargetLang
       record_request setItem removeItem console_error].

Tactic Notation "fields_in" hyp(H) :=
  cbn [app requests localStorage nodes sourceNodeRef audioContextRef console contexts
       inputText translatedText sourceLang targetLang selectedVoice isLoading
       isPlaying history error with_app with_storage with_nodes
       setIsPlaying setError setIsLoading setTranslatedText setHistory
       setInputText setSourceLang setTargetLang
       record_request setItem removeItem console_error] in H.

Section HandlerFrames.

Lemma ensureAudioContext_frame (w : World) :
  same_audio w (snd (ensureAudioContext w))
  /\ requests (snd (ensureAudioContext w)) = requests w
  /\ app (snd (ensureAudioContext w)) = app w
  /\ localStorage (snd (ensureAudioContext w)) = localStorage w.
Proof. unfold ensureAudioContext. destruct (audioContextRef w); simpl; repeat split. Qed.

Lemma play_frame (buf : AudioBuffer) (w : World) :
  requests (play buf w) = requests w /\ app (play buf w) = app w
  /\ localStorage (play buf w) = localStorage w.
Proof. unfold play, stopCurrent. destruct (sourceNodeRef w); simpl; repeat split. Qed.

(** The cells [speakText] writes are [isPlaying] and [error]. *)
Definition speech_cells (a a' : AppState) : Prop :=
  inputText a' = inputText a /\ translatedText a' = translatedText a
  /\ sourceLang a' = sourceLang a /\ targetLang a' = targetLang a
  /\ selectedVoice a' = selectedVoice a /\ isLoading a' = isLoading a
  /\ history a' = history a.

Lemma speakText_frame (snap : Snapshot) (text : jsstring) (o : Oracle) (w : World) :
  text <> [] ->
  let w' := speakText snap text o w in
  requests w' = requests w ++ [speech_request text (selectedVoice snap)]
  /\ localStorage w' = localStorage w
  /\ speech_cells (app w) (app w')
  /\ match speech text (selectedVoice snap) (speechReply o) with
     | Return buf => same_audio (play buf w) w' /\ isPlaying (app w') = true
                     /\ error (app w') = error (app w)
     | Throw e => same_audio w w' /\ isPlaying (app w') = false
                  /\ error (app w') = Some (js "Speech synthesis failed: " ++ message e)
     end.
Proof.
  intros Ht w'. subst w'. rewrite (speakText_run snap text o w Ht). unfold speech.
  destruct (synthesized text (selectedVoice snap) (speechReply o)) as [b|e];
    [|fields; repeat split].
  set (w1 := record_request _ _).
  destruct (ensureAudioContext_frame w1) as ([Hn Hf] & Hr & Hp & Hs).
  destruct (decode b) as [bytes|e]; [unfold decodeAudioData;
    destruct (bytesToAudioBuffer bytes 24000 1) as [buf|e]|].
  - destruct (play_frame buf (snd (ensureAudioContext w1))) as (Hr' & Hp' & Hs').
    rewrite Hr', Hp', Hs', Hr, Hp, Hs.
    split; [reflexivity|]. split; [reflexivity|]. split; [repeat split|].
    split; [|split; reflexivity].
    apply play_same_audio. split; [rewrite Hn | rewrite Hf]; reflexivity.
  - fields. rewrite Hr, Hp, Hs.
    split; [reflexivity|]. split; [reflexivity|]. split; [repeat split|].
    split; [split; fields; [rewrite Hn | rewrite Hf]; reflexivity|]. split; reflexivity.
  - fields. rewrite Hr, Hp, Hs.
    split; [reflexivity|]. split; [reflexivity|]. split; [repeat split|].
    split; [split; fields; [rewrite Hn | rewrite Hf]; reflexivity|]. split; reflexivity.
Qed.

Lemma trim_nonempty (s : jsstring) : trim s <> [] -> s <> [].
Proof. intros H ->. apply H. reflexivity. Qed.

End HandlerFrames.

Section SubmissionPaths.

(** The world of a submission once the translation request, if any, is
    out. *)
Lemma translation_sent_frame (snap : Snapshot) (w1 : World) :
  let T := translation_request (inputText snap) (sourceLang snap) (targetLang snap) in
  let w1' := if eqb (sourceLang snap) (targetLang snap) then w1 else record_request T w1 in
  app w1' = app w1 /\ localStorage w1' = localStorage w1
  /\ same_audio w1 w1'
  /\ requests w1' = requests w1
                    ++ (if eqb (sourceLang snap) (targetLang snap) then [] else [T]).
Proof.
  intros T w1'. subst w1'. destruct (eqb (sourceLang snap) (targetLang snap)).
  - rewrite app_nil_r. repeat split.
  - repeat split.
Qed.

Lemma spread_throws (v : JSValue) (e : JsError) :
  spread v = Throw e ->
  (forall items, v <> JArr items) /\ (forall s, v <> JStr s).
Proof. destruct v; simpl; intros H; try discriminate; split; discriminate. Qed.

End SubmissionPaths.

(** X4. A submission with non-blank text always ends with [isLoading]
    false, whatever the two services answer. It sends at most two
    requests and never repeats one: the translation request, present
    exactly when the two language codes differ, and after it at most one
    synthesis request, present only when the translation succeeded with a
    non-empty text, which is the text it carries. *)
Theorem submit_resets_loading (snap : Snapshot) (o : Oracle) (w : World) :
  trim (inputText snap) <> [] ->
  let w' := handleTranslateAndSpeak snap o w in
  isLoading (app w') = false
  /\ exists ss,
      requests w'
      = requests w
        ++ (if eqb (sourceLang snap) (targetLang snap) then []
            else [translation_request (inputText snap) (sourceLang snap) (targetLang snap)])
        ++ ss
      /\ (ss = []
          \/ exists tr,
              translated (inputText snap) (sourceLang snap) (targetLang snap)
                         (translateReply o) = Return tr
              /\ tr <> [] /\ ss = [speech_request tr (selectedVoice snap)]).
Proof.
  intros Ht w'. subst w'. rewrite (handleTranslateAndSpeak_run snap o w Ht).
  split; [reflexivity|]. fields.
  destruct (translation_sent_frame snap (setError None (setIsLoading true w)))
    as (_ & _ & _ & Hr).
  set (w1' := if eqb _ _ then _ else _) in *. fields_in Hr.
  destruct (translated _ _ _ _) as [tr|e] eqn:Htr.
  - destruct (spread (history snap)) as [rest|e].
    + destruct tr as [|c t].
      * exists []. rewrite app_nil_r. split; [exact Hr | left; reflexivity].
      * exists [speech_request (c :: t) (selectedVoice snap)].
        split; [|right; exists (c :: t); repeat split; discriminate].
        match goal with |- requests (speakText ?s ?x ?o ?w0) = _ =>
          destruct (speakText_frame s x o w0) as (Hs & _); [discriminate|]; rewrite Hs end.
        fields. rewrite Hr, <- app_assoc. reflexivity.
    + exists []. rewrite app_nil_r. fields. split; [exact Hr | left; reflexivity].
  - exists []. rewrite app_nil_r. fields. split; [exact Hr | left; reflexivity].
Qed.

Lemma submit_resets_loading_witness :
  isLoading (app Scenario.submitted) = false.
Proof.
  refine (proj1 (submit_resets_loading Scenario.snapshot Scenario.answers (start ∅) _)).
  vm_compute. discriminate.
Defined.

Section SavedSubmission.

(** A submission whose translation succeeded, at the point where the
    record has been saved and [speakText] is about to be called. *)
Lemma submit_saved (snap : Snapshot) (o : Oracle) (w : World)
    (tr : jsstring) (l : list JSValue) :
  trim (inputText snap) <> [] ->
  translated (inputText snap) (sourceLang snap) (targetLang snap) (translateReply o)
  = Return tr ->
  history snap = JArr l ->
  let newHistory := JArr (take 10 (submitted_record snap tr o :: l)) in
  exists w3,
    handleTranslateAndSpeak snap o w = setIsLoading false (speakText snap tr o w3)
    /\ history (app w3) = newHistory
    /\ localStorage w3 = <[vox_history := JSON_stringify newHistory]> (localStorage w)
    /\ translatedText (app w3) = tr
    /\ error (app w3) = None
    /\ isPlaying (app w3) = isPlaying (app w)
    /\ same_audio w w3
    /\ requests w3
       = requests w
         ++ (if eqb (sourceLang snap) (targetLang snap) then []
             else [translation_request (inputText snap) (sourceLang snap) (targetLang snap)]).
Proof.
  intros Ht Htr Hh newHistory.
  rewrite (handleTranslateAndSpeak_run snap o w Ht), Htr, Hh. cbn [spread].
  destruct (translation_sent_frame snap (setError None (setIsLoading true w)))
    as (Ha & Hs & [Hn Hf] & Hr).
  set (w1' := if eqb _ _ then _ else _) in *.
  eexists. split; [reflexivity|]. fields. rewrite Ha, Hs, Hr. fields.
  repeat split; fields; rewrite ?Hn, ?Hf; reflexivity.
Qed.

End SavedSubmission.

(** X5. The record is saved before the speech is attempted. When the
    translation succeeds with a non-empty text and the synthesis (or the
    decoding of its payload) fails, the new record is nevertheless at the
    head of the history and in storage and the translation is on screen;
    the error cell holds "Speech synthesis failed: " and the message, both
    flags are false, and no source node was started or stopped. *)
Theorem record_kept_when_speech_fails (snap : Snapshot) (o : Oracle) (w : World)
    (tr : jsstring) (l : list JSValue) (e : JsError) :
  trim (inputText snap) <> [] ->
  translated (inputText snap) (sourceLang snap) (targetLang snap) (translateReply o)
  = Return tr ->
  tr <> [] ->
  history snap = JArr l ->
  speech tr (selectedVoice snap) (speechReply o) = Throw e ->
  let w' := handleTranslateAndSpeak snap o w in
  history (app w') = JArr (take 10 (submitted_record snap tr o :: l))
  /\ localStorage w' !! vox_history = Some (JSON_stringify (history (app w')))
  /\ translatedText (app w') = tr
  /\ error (app w') = Some (js "Speech synthesis failed: " ++ message e)
  /\ isPlaying (app w') = false /\ isLoading (app w') = false
  /\ same_audio w w'.
Proof.
  intros Ht Htr Hne Hh Hsp w'. subst w'.
  destruct (submit_saved snap o w tr l Ht Htr Hh)
    as (w3 & -> & Hh3 & Hs3 & Ht3 & _ & _ & [Hn3 Hf3] & _).
  destruct (speakText_frame snap tr o w3 Hne) as (_ & Hs & Hc & Hout).
  rewrite Hsp in Hout. destruct Hout as ([Hn Hf] & Hp & He).
  destruct Hc as (_ & Htt & _ & _ & _ & _ & Hhh).
  fields. rewrite Hhh, Hh3, Hs, Hs3, Htt, Ht3, He, Hp.
  split; [reflexivity|]. split; [apply lookup_insert_eq|].
  repeat split; fields; congruence.
Qed.

Lemma record_kept_when_speech_fails_witness :
  let o := mkOracle (Resolved (mkResponse (Some (js "hola")) None))
                    (Rejected (mkError Error (js "quota"))) 7 in
  error (app (handleTranslateAndSpeak Scenario.snapshot o (start ∅)))
  = Some (js "Speech synthesis failed: quota")
  /\ history (app (handleTranslateAndSpeak Scenario.snapshot o (start ∅)))
     = JArr [submitted_record Scenario.snapshot (js "hola") o].
Proof.
  intros o.
  destruct (record_kept_when_speech_fails Scenario.snapshot o (start ∅) (js "hola") []
              (mkError Error (js "quota")))
    as (Hh & _ & _ & He & _).
  - vm_compute. discriminate.
  - reflexivity.
  - discriminate.
  - reflexivity.
  - reflexivity.
  - split; [exact He | exact Hh].
Defined.

(** X6. With the same code for source and target the submission speaks
    the input itself: no translation request is sent, the one request is
    the synthesis request and it carries the input text as typed, not
    trimmed; the text shown as translation is the input, and so is the
    translation of the record saved. *)
Theorem submit_same_language_speaks_input (snap : Snapshot) (o : Oracle) (w : World)
    (l : list JSValue) :
  trim (inputText snap) <> [] ->
  sourceLang snap = targetLang snap ->
  history snap = JArr l ->
  let w' := handleTranslateAndSpeak snap o w in
  requests w' = requests w ++ [speech_request (inputText snap) (selectedVoice snap)]
  /\ translatedText (app w') = inputText snap
  /\ history (app w')
     = JArr (take 10 (submitted_record snap (inputText snap) o :: l))
  /\ localStorage w' !! vox_history = Some (JSON_stringify (history (app w'))).
Proof.
  intros Ht Hl Hh w'. subst w'.
  assert (Htr : translated (inputText snap) (sourceLang snap) (targetLang snap)
                  (translateReply o) = Return (inputText snap)).
  { rewrite translated_cases, Hl, eqb_refl. reflexivity. }
  destruct (submit_saved snap o w _ l Ht Htr Hh)
    as (w3 & -> & Hh3 & Hs3 & Ht3 & _ & _ & _ & Hr3).
  destruct (speakText_frame snap (inputText snap) o w3 (trim_nonempty _ Ht))
    as (Hr & Hs & Hc & _).
  destruct Hc as (_ & Htt & _ & _ & _ & _ & Hhh).
  rewrite Hl, eqb_refl, app_nil_r in Hr3.
  fields. rewrite Hr, Hr3, Htt, Ht3, Hhh, Hh3, Hs, Hs3.
  split; [reflexivity|]. split; [reflexivity|]. split; [reflexivity|].
  apply lookup_insert_eq.
Qed.

Lemma submit_same_language_speaks_input_witness :
  let snap := mkAppState (js " hi ") [] (js "en") (js "en") (js "Kore")
                         false false (JArr []) None in
  requests (handleTranslateAndSpeak snap Scenario.answers (start ∅))
  = requests (start ∅) ++ [speech_request (js " hi ") (js "Kore")].
Proof.
  intros snap.
  refine (proj1 (submit_same_language_speaks_input snap Scenario.answers (start ∅) [] _ _ _)).
  - vm_compute. discriminate.
  - reflexivity.
  - reflexivity.
Defined.

(** X7. When the translation resolves to the empty string (the response
    carried no text), the submission still saves a record, with an empty
    translation, and stops there without any sign of failure: no
    synthesis request is sent, the error cell is empty, [isPlaying] and
    the source nodes are as they were. *)
Theorem empty_translation_is_recorded (snap : Snapshot) (o : Oracle) (w : World)
    (l : list JSValue) :
  trim (inputText snap) <> [] ->
  translated (inputText snap) (sourceLang snap) (targetLang snap) (translateReply o)
  = Return [] ->
  history snap = JArr l ->
  let w' := handleTranslateAndSpeak snap o w in
  history (app w') = JArr (take 10 (submitted_record snap [] o :: l))
  /\ localStorage w' !! vox_history = Some (JSON_stringify (history (app w')))
  /\ requests w'
     = requests w
       ++ [translation_request (inputText snap) (sourceLang snap) (targetLang snap)]
  /\ translatedText (app w') = []
  /\ error (app w') = None
  /\ isPlaying (app w') = isPlaying (app w) /\ isLoading (app w') = false
  /\ same_audio w w'.
Proof.
  intros Ht Htr Hh w'. subst w'.
  destruct (submit_saved snap o w [] l Ht Htr Hh)
    as (w3 & -> & Hh3 & Hs3 & Ht3 & He3 & Hp3 & [Hn3 Hf3] & Hr3).
  change (speakText snap [] o w3) with w3. fields.
  assert (Hl : eqb (sourceLang snap) (targetLang snap) = false).
  { destruct (eqb (sourceLang snap) (targetLang snap)) eqn:E; [|reflexivity].
    rewrite translated_cases, E in Htr. injection Htr as Htr.
    exfalso. apply (trim_nonempty _ Ht), Htr. }
  rewrite Hl in Hr3. rewrite Hh3, Hs3, Hr3, Ht3, He3, Hp3.
  split; [reflexivity|]. split; [apply lookup_insert_eq|].
  repeat split; fields; assumption.
Qed.

Lemma empty_translation_is_recorded_witness :
  let o := mkOracle (Resolved (mkResponse None None)) (Rejected (mkError Error [])) 7 in
  history (app (handleTranslateAndSpeak Scenario.snapshot o (start ∅)))
  = JArr [submitted_record Scenario.snapshot [] o]
  /\ error (app (handleTranslateAndSpeak Scenario.snapshot o (start ∅))) = None.
Proof.
  intros o.
  destruct (empty_translation_is_recorded Scenario.snapshot o (start ∅) [])
    as (Hh & _ & _ & _ & He & _).
  - vm_compute. discriminate.
  - reflexivity.
  - reflexivity.
  - split; [exact Hh | exact He].
Defined.

(** X8. When the history the render holds cannot be spread (it is
    neither an array nor a string: [null], a number, a boolean or an
    object, as a start-up on such a stored value leaves it), a submission
    translates and shows the translation, then fails: nothing is stored,
    the history in memory is not touched, no synthesis request is sent,
    no node is started, and the error cell holds the message of the
    TypeError. *)
Theorem submit_fails_on_unspreadable_history (snap : Snapshot) (o : Oracle) (w : World)
    (tr : jsstring) (e : JsError) :
  trim (inputText snap) <> [] ->
  translated (inputText snap) (sourceLang snap) (targetLang snap) (translateReply o)
  = Return tr ->
  spread (history snap) = Throw e ->
  let w' := handleTranslateAndSpeak snap o w in
  history (app w') = history (app w)
  /\ localStorage w' = localStorage w
  /\ translatedText (app w') = tr
  /\ error (app w') = Some (message_or_default e)
  /\ isLoading (app w') = false
  /\ requests w'
     = requests w
       ++ (if eqb (sourceLang snap) (targetLang snap) then []
           else [translation_request (inputText snap) (sourceLang snap) (targetLang snap)])
  /\ same_audio w w'
  /\ (forall items, history snap <> JArr items).
Proof.
  intros Ht Htr Hsp w'. subst w'.
  rewrite (handleTranslateAndSpeak_run snap o w Ht), Htr, Hsp.
  destruct (translation_sent_frame snap (setError None (setIsLoading true w)))
    as (Ha & Hs & [Hn Hf] & Hr).
  set (w1' := if eqb _ _ then _ else _) in *.
  fields. rewrite Ha, Hs, Hr. fields.
  repeat split; fields; rewrite ?Hn, ?Hf; try reflexivity.
  apply (spread_throws _ _ Hsp).
Qed.

Lemma submit_fails_on_unspreadable_history_witness :
  let snap := mkAppState (js "hi") [] (js "en") (js "es") (js "Zephyr")
                         false false JNull None in
  let w := start {[ vox_history := js "null" ]} in
  localStorage (handleTranslateAndSpeak snap Scenario.answers w) = localStorage w
  /\ error (app (handleTranslateAndSpeak snap Scenario.answers w))
     = Some (js "history is not iterable").
Proof.
  intros snap w.
  destruct (submit_fails_on_unspreadable_history snap Scenario.answers w (js "hola")
              (mkError TypeError (js "history is not iterable")))
    as (_ & Hs & _ & He & _).
  - vm_compute. discriminate.
  - reflexivity.
  - reflexivity.
  - split; [exact Hs | exact He].
Defined.



(** ** Closures, controls and the history list *)

Section HistoryAfterSubmit.

Lemma speakText_keeps_history (snap : Snapshot) (text : jsstring) (o : Oracle) (w : World) :
  history (app (speakText snap text o w)) = history (app w)
  /\ localStorage (speakText snap text o w) = localStorage w.
Proof.
  destruct text as [|c t]; [split; reflexivity|].
  destruct (speakText_frame snap (c :: t) o w) as (_ & Hs & Hc & _); [discriminate|].
  destruct Hc as (_ & _ & _ & _ & _ & _ & Hh). split; assumption.
Qed.

(** The history and the stored text after a submission whose translation
    succeeded, whatever became of the speech. *)
Lemma submit_history (snap : Snapshot) (o : Oracle) (w : World)
    (tr : jsstring) (l : list JSValue) :
  trim (inputText snap) <> [] ->
  translated (inputText snap) (sourceLang snap) (targetLang snap) (translateReply o)
  = Return tr ->
  history snap = JArr l ->
  let newHistory := JArr (take 10 (submitted_record snap tr o :: l)) in
  history (app (handleTranslateAndSpeak snap o w)) = newHistory
  /\ localStorage (handleTranslateAndSpeak snap o w)
     = <[vox_history := JSON_stringify newHistory]> (localStorage w).
Proof.
  intros Ht Htr Hh newHistory.
  destruct (submit_saved snap o w tr l Ht Htr Hh) as (w3 & -> & Hh3 & Hs3 & _).
  destruct (speakText_keeps_history snap tr o w3) as [Hh' Hs'].
  fields. rewrite Hh', Hs', Hh3, Hs3. split; reflexivity.
Qed.

Lemma loadEntry_submitted_record (snap : Snapshot) (tr : jsstring) (o : Oracle) (v : World) :
  loadEntry (submitted_record snap tr o) v
  = Some (setTargetLang (targetLang snap)
            (setSourceLang (sourceLang snap)
               (setTranslatedText tr (setInputText (inputText snap) v)))).
Proof. reflexivity. Qed.

End HistoryAfterSubmit.

(** X10. [saveToHistory] appends to the history of the render that
    created the handler, not to the current one. If the history is cleared
    after that render (so memory and storage are empty when the save
    runs), the submission writes the entries of its render back, below the
    new record, in memory and in storage. *)
Theorem stale_submission_restores_cleared_history
    (snap : Snapshot) (o : Oracle) (w : World) (tr : jsstring) (l : list JSValue) :
  trim (inputText snap) <> [] ->
  translated (inputText snap) (sourceLang snap) (targetLang snap) (translateReply o)
  = Return tr ->
  history snap = JArr l ->
  let cleared := clearHistory w in
  let w' := handleTranslateAndSpeak snap o cleared in
  history (app cleared) = JArr []
  /\ localStorage cleared !! vox_history = None
  /\ history (app w') = JArr (take 10 (submitted_record snap tr o :: l))
  /\ localStorage w' !! vox_history
     = Some (JSON_stringify (JArr (take 10 (submitted_record snap tr o :: l)))).
Proof.
  intros Ht Htr Hh cleared w'. subst w'.
  destruct (submit_history snap o cleared tr l Ht Htr Hh) as [Hh' Hs'].
  split; [reflexivity|]. split; [apply lookup_delete_eq|].
  split; [exact Hh'|]. rewrite Hs'. apply lookup_insert_eq.
Qed.

Lemma stale_submission_restores_cleared_history_witness :
  let old := submitted_record Scenario.snapshot (js "adios") Scenario.answers in
  let snap := mkAppState (js "hi") [] (js "en") (js "es") (js "Zephyr")
                         false false (JArr [old]) None in
  history (app (handleTranslateAndSpeak snap Scenario.answers (clearHistory (start ∅))))
  = JArr [submitted_record snap (js "hola") Scenario.answers; old].
Proof.
  intros old snap.
  destruct (stale_submission_restores_cleared_history snap Scenario.answers (start ∅)
              (js "hola") [old]) as (_ & _ & Hh & _).
  - vm_compute. discriminate.
  - reflexivity.
  - reflexivity.
  - exact Hh.
Defined.

(** X11. The swap button exchanges the two language codes and touches
    nothing else. Pressed again by the next render it restores the world
    exactly; pressed again by the same render (before a re-render) it
    changes nothing more, since both presses write the values of that
    render. *)
Theorem swapLanguages_twice (w : World) :
  let w1 := swapLanguages (app w) w in
  sourceLang (app w1) = targetLang (app w)
  /\ targetLang (app w1) = sourceLang (app w)
  /\ swapLanguages (app w1) w1 = w
  /\ swapLanguages (app w) w1 = w1.
Proof.
  destruct w as [[] ? ? ? ? ? ? ?]. repeat split.
Qed.

(** X12. A record saved by a submission loads back what was submitted.
    After a submission whose translation succeeded, a click on the first
    entry of the list puts the input text, the translation and the two
    language codes of that submission into their cells, in whatever world
    the click happens, and changes nothing else: no request, no storage
    write, no playback, the flags, the history and the error untouched. *)
Theorem saved_entry_loads_back (snap : Snapshot) (o : Oracle) (w v : World)
    (tr : jsstring) (l : list JSValue) :
  trim (inputText snap) <> [] ->
  translated (inputText snap) (sourceLang snap) (targetLang snap) (translateReply o)
  = Return tr ->
  history snap = JArr l ->
  exists v',
    clickEntry (app (handleTranslateAndSpeak snap o w)) 0 v = Some v'
    /\ inputText (app v') = inputText snap
    /\ translatedText (app v') = tr
    /\ sourceLang (app v') = sourceLang snap
    /\ targetLang (app v') = targetLang snap
    /\ selectedVoice (app v') = selectedVoice (app v)
    /\ isLoading (app v') = isLoading (app v) /\ isPlaying (app v') = isPlaying (app v)
    /\ history (app v') = history (app v) /\ error (app v') = error (app v)
    /\ requests v' = requests v /\ localStorage v' = localStorage v
    /\ same_audio v v'.
Proof.
  intros Ht Htr Hh.
  destruct (submit_history snap o w tr l Ht Htr Hh) as [Hh' _].
  unfold clickEntry. rewrite Hh'. cbn [take lookup list_lookup].
  rewrite loadEntry_submitted_record. eexists. split; [reflexivity|].
  repeat split.
Qed.

Lemma saved_entry_loads_back_witness :
  exists v',
    clickEntry (app Scenario.submitted) 0 (clearHistory Scenario.submitted) = Some v'
    /\ inputText (app v') = js "hi" /\ translatedText (app v') = js "hola".
Proof.
  destruct (saved_entry_loads_back Scenario.snapshot Scenario.answers (start ∅)
              (clearHistory Scenario.submitted) (js "hola") [])
    as (v' & Hc & Hi & Ht & _).
  - vm_compute. discriminate.
  - reflexivity.
  - reflexivity.
  - exists v'. split; [exact Hc|]. split; [exact Hi | exact Ht].
Defined.

(** ** What a run can and cannot change *)

Create HintDb frame discriminated.

Section Frame.

(** A relation between worlds that every elementary action of the
    handlers respects. *)
Variable R : World -> World -> Prop.
Hypothesis R_refl : forall w, R w w.
Hypothesis R_trans : forall w1 w2 w3, R w1 w2 -> R w2 w3 -> R w1 w3.
Hypothesis R_cells : forall f, related R (with_app f).
Hypothesis R_request : forall rq, related R (record_request rq).
Hypothesis R_save : forall v, related R (setItem vox_history v).
Hypothesis R_remove : related R (removeItem vox_history).
Hypothesis R_context : relates R ensureAudioContext.
Hypothesis R_play : forall buf, related R (play buf).

Lemma relates_ret {A} (a : A) : relates R (ret a).
Proof. intros w. apply R_refl. Qed.

Lemma relates_throw {A} (e : JsError) : relates R (@throw World A e).
Proof. intros w. apply R_refl. Qed.

Lemma relates_lift {A} (r : Result A) : relates R (lift r).
Proof. intros w. apply R_refl. Qed.

Lemma relates_exec (f : World -> World) : related R f -> relates R (exec f).
Proof. intros Hf w. apply Hf. Qed.

Lemma relates_bind {A B} (m : M World A) (k : A -> M World B) :
  relates R m -> (forall a, relates R (k a)) -> relates R (bind m k).
Proof.
  intros Hm Hk w. unfold bind. specialize (Hm w).
  destruct (m w) as [[a|e] w1]; simpl in *; [|exact Hm].
  eapply R_trans; [exact Hm | apply Hk].
Qed.

Lemma related_try_catch (m : M World unit) (h : JsError -> World -> World) :
  relates R m -> (forall e, related R (h e)) -> related R (try_catch m h).
Proof.
  intros Hm Hh w. unfold try_catch. specialize (Hm w).
  destruct (m w) as [[a|e] w1]; simpl in *; [exact Hm|].
  eapply R_trans; [exact Hm | apply Hh].
Qed.

Lemma related_compose (f g : World -> World) :
  related R f -> related R g -> related R (fun w => f (g w)).
Proof. intros Hf Hg w. eapply R_trans; [apply Hg | apply Hf]. Qed.

Hint Resolve relates_ret relates_throw relates_lift relates_exec relates_bind
  related_try_catch related_compose R_cells R_request R_save R_remove R_context
  R_play : frame.

Lemma relates_generateContent (rq : Request) (reply : Reply) :
  relates R (generateContent record_request rq reply).
Proof. unfold generateContent. destruct reply; auto with frame. Qed.

Hint Resolve relates_generateContent : frame.

Lemma relates_translateText (text src tgt : jsstring) (reply : Reply) :
  relates R (translateText record_request text src tgt reply).
Proof. unfold translateText. destruct (eqb src tgt); auto with frame. Qed.

Lemma relates_generateSpeech (text voiceName : jsstring) (reply : Reply) :
  relates R (generateSpeech record_request text voiceName reply).
Proof.
  unfold generateSpeech. apply relates_bind; [auto with frame|].
  intros r. destruct (inlineData r) as [b|]; [destruct (falsy b)|]; auto with frame.
Qed.

Lemma relates_saveToHistory (snap : Snapshot) (r : JSValue) :
  relates R (saveToHistory snap r).
Proof. unfold saveToHistory, setHistory. auto 10 with frame. Qed.

Hint Resolve relates_translateText relates_generateSpeech relates_saveToHistory : frame.

Lemma related_speakText (snap : Snapshot) (text : jsstring) (o : Oracle) :
  related R (speakText snap text o).
Proof.
  intros w. unfold speakText. destruct (falsy text); [apply R_refl|].
  apply (R_trans _ (setIsPlaying true w)); [unfold setIsPlaying; apply R_cells|].
  apply related_try_catch.
  - repeat (apply relates_bind; [auto with frame|]; intros ?).
    apply relates_exec, R_play.
  - intros e. unfold setIsPlaying, setError. auto with frame.
Qed.

Lemma related_handleTranslateAndSpeak (snap : Snapshot) (o : Oracle) :
  related R (handleTranslateAndSpeak snap o).
Proof.
  intros w. unfold handleTranslateAndSpeak.
  destruct (falsy (trim (inputText snap))); [apply R_refl|].
  match goal with |- R _ (setIsLoading false ?x) =>
    apply (R_trans _ x); [|unfold setIsLoading; apply R_cells] end.
  apply (R_trans _ (setError None (setIsLoading true w)));
    [unfold setError, setIsLoading; apply (related_compose _ _ (R_cells _) (R_cells _))|].
  apply related_try_catch.
  - repeat (apply relates_bind; [unfold setTranslatedText; auto with frame|]; intros ?).
    apply relates_exec, related_speakText.
  - intros e. apply R_cells.
Qed.

Lemma related_clearHistory : related R clearHistory.
Proof.
  intros w. unfold clearHistory.
  apply (R_trans _ (setHistory (JArr []) w)); [unfold setHistory; apply R_cells | apply R_remove].
Qed.

Lemma related_mountEffect :
  (forall msg, related R (console_error msg)) -> related R mountEffect.
Proof.
  intros Hc w. unfold mountEffect.
  destruct (getItem vox_history w) as [saved|]; [|apply R_refl].
  destruct (falsy saved); [apply R_refl|].
  destruct (JSON_parse saved); [unfold setHistory; apply R_cells | apply Hc].
Qed.

(** The relation then holds along every run. *)
Lemma related_run :
  (forall k v, related R (setItem k v)) ->
  (forall i, related R (reachEnd i)) ->
  (forall i, related R (dispatchEnded i)) ->
  forall w w', rtc step w w' -> R w w'.
Proof.
  intros Hstore Hend Hdisp w w' Hrun.
  induction Hrun as [w|w w1 w2 Hstep _ IH]; [apply R_refl|].
  eapply R_trans; [|exact IH]. destruct Hstep.
  - apply related_handleTranslateAndSpeak.
  - apply related_speakText.
  - apply related_clearHistory.
  - apply Hend.
  - apply Hdisp.
  - apply R_cells.
  - apply R_request.
  - apply Hstore.
  - apply R_context.
  - apply R_play.
Qed.

End Frame.

Section StorageKeys.

Lemma other_keys_same_storage (w w' : World) :
  localStorage w' = localStorage w -> other_keys_kept w w'.
Proof. intros H k _. rewrite H. reflexivity. Qed.

Lemma other_keys_trans (w1 w2 w3 : World) :
  other_keys_kept w1 w2 -> other_keys_kept w2 w3 -> other_keys_kept w1 w3.
Proof. intros H12 H23 k Hk. rewrite (H23 k Hk). apply H12, Hk. Qed.

Lemma other_keys_save (v : jsstring) : related other_keys_kept (setItem vox_history v).
Proof. intros w k Hk. fields. apply lookup_insert_ne. congruence. Qed.

Lemma other_keys_remove : related other_keys_kept (removeItem vox_history).
Proof. intros w k Hk. fields. apply lookup_delete_ne. congruence. Qed.

Lemma start_keeps_storage (storage : gmap jsstring jsstring) :
  localStorage (start storage) = storage.
Proof.
  rewrite start_unfold. cbv zeta.
  destruct (storage !! vox_history) as [saved|]; [|reflexivity].
  destruct (falsy saved); [reflexivity|]. destruct (JSON_parse saved); reflexivity.
Qed.

End StorageKeys.

(** X13. Of the storage the component writes the history key only: a
    submission, a [speakText] and a [clearHistory] leave the value under
    every other key as it was, whatever the services answer; and a
    start-up writes nothing at all. *)
Theorem only_history_key_is_written
    (snap : Snapshot) (text : jsstring) (o : Oracle) (w : World)
    (storage : gmap jsstring jsstring) :
  other_keys_kept w (handleTranslateAndSpeak snap o w)
  /\ other_keys_kept w (speakText snap text o w)
  /\ other_keys_kept w (clearHistory w)
  /\ localStorage (start storage) = storage.
Proof.
  assert (Hplay : forall buf, related other_keys_kept (play buf)).
  { intros buf w0. apply other_keys_same_storage, play_frame. }
  assert (Hctx : relates other_keys_kept ensureAudioContext).
  { intros w0. apply other_keys_same_storage, ensureAudioContext_frame. }
  assert (Hrefl : forall w0, other_keys_kept w0 w0)
    by (intros w0; apply other_keys_same_storage; reflexivity).
  assert (Hcells : forall f, related other_keys_kept (with_app f))
    by (intros f w0; apply other_keys_same_storage; reflexivity).
  assert (Hreq : forall rq, related other_keys_kept (record_request rq))
    by (intros rq w0; apply other_keys_same_storage; reflexivity).
  split; [apply related_handleTranslateAndSpeak|
          split; [apply related_speakText|split; [apply related_clearHistory|]]];
    try assumption; try exact other_keys_trans; try exact other_keys_save;
    try exact other_keys_remove.
  apply start_keeps_storage.
Qed.

Section NodeHistory.

Lemma state_advances_refl (st : NodeState) : state_advances st st.
Proof. destruct st; simpl; trivial. Qed.

Lemma state_advances_trans (a b c : NodeState) :
  state_advances a b -> state_advances b c -> state_advances a c.
Proof. destruct a, b, c; simpl; intros; try tauto; congruence. Qed.

Lemma nodes_advance_same (w w' : World) : nodes w' = nodes w -> nodes_advance w w'.
Proof.
  intros H i n Hi. exists n. rewrite H.
  repeat split; [exact Hi | apply state_advances_refl].
Qed.

Lemma nodes_advance_trans (w1 w2 w3 : World) :
  nodes_advance w1 w2 -> nodes_advance w2 w3 -> nodes_advance w1 w3.
Proof.
  intros H12 H23 i n Hi.
  destruct (H12 i n Hi) as (n2 & Hi2 & Hb2 & Hc2 & Ho2 & Hs2).
  destruct (H23 i n2 Hi2) as (n3 & Hi3 & Hb3 & Hc3 & Ho3 & Hs3).
  exists n3. repeat split; try congruence.
  eapply state_advances_trans; eassumption.
Qed.

(** Replacing a node by a later version of itself. *)
Lemma nodes_advance_alter (w w' : World) (i : nat) (f : SourceNode -> SourceNode) :
  nodes w' = alter f i (nodes w) ->
  (forall n, buffer (f n) = buffer n /\ connected (f n) = connected n
             /\ onended (f n) = onended n /\ state_advances (state n) (state (f n))) ->
  nodes_advance w w'.
Proof.
  intros Hn Hf j n Hj. rewrite Hn. destruct (decide (i = j)) as [->|Hne].
  - exists (f n). rewrite list_lookup_alter_eq, Hj. split; [reflexivity|]. apply Hf.
  - exists n. rewrite list_lookup_alter_ne by exact Hne.
    repeat split; [exact Hj | apply state_advances_refl].
Qed.

Lemma stop_advances (n : SourceNode) :
  buffer (WebAudio.stop n) = buffer n /\ connected (WebAudio.stop n) = connected n
  /\ onended (WebAudio.stop n) = onended n
  /\ state_advances (state n) (state (WebAudio.stop n)).
Proof.
  unfold WebAudio.stop. destruct (state n) eqn:E; simpl; rewrite ?E; simpl; repeat split.
Qed.

Lemma nodes_advance_play (buf : AudioBuffer) : related nodes_advance (play buf).
Proof.
  intros w. apply (nodes_advance_trans _ (stopCurrent w)).
  - unfold stopCurrent. destruct (sourceNodeRef w) as [i|];
      [|apply nodes_advance_same; reflexivity].
    apply (nodes_advance_alter _ _ i WebAudio.stop); [reflexivity | apply stop_advances].
  - intros i n Hi. exists n. unfold play, startSource. simpl.
    rewrite lookup_app_l by (eapply lookup_lt_Some, Hi).
    repeat split; [exact Hi | apply state_advances_refl].
Qed.

Lemma nodes_advance_reachEnd (i : nat) : related nodes_advance (reachEnd i).
Proof.
  intros w. unfold reachEnd.
  destruct (nodes w !! i) as [n|] eqn:Hi; [|apply nodes_advance_same; reflexivity].
  destruct (state n) eqn:Hs; try (apply nodes_advance_same; reflexivity).
  intros j m Hj. simpl. destruct (decide (i = j)) as [->|Hne].
  - rewrite Hi in Hj. injection Hj as <-. eexists.
    rewrite list_lookup_insert_eq by (eapply lookup_lt_Some, Hi).
    split; [reflexivity|]. rewrite Hs. repeat split.
  - exists m. rewrite list_lookup_insert_ne by exact Hne.
    repeat split; [exact Hj | apply state_advances_refl].
Qed.

Lemma nodes_advance_dispatchEnded (i : nat) : related nodes_advance (dispatchEnded i).
Proof.
  intros w. unfold dispatchEnded.
  destruct (nodes w !! i) as [n|] eqn:Hi; [|apply nodes_advance_same; reflexivity].
  destruct (state n) eqn:Hs; try (apply nodes_advance_same; reflexivity).
  eapply nodes_advance_trans;
    [|apply nodes_advance_same; unfold run_handler;
      destruct (onended n) as [[]|]; reflexivity].
  intros j m Hj. simpl. destruct (decide (i = j)) as [->|Hne].
  - rewrite Hi in Hj. injection Hj as <-. eexists.
    rewrite list_lookup_insert_eq by (eapply lookup_lt_Some, Hi).
    split; [reflexivity|]. rewrite Hs. repeat split.
  - exists m. rewrite list_lookup_insert_ne by exact Hne.
    repeat split; [exact Hj | apply state_advances_refl].
Qed.

Lemma nodes_advance_run (w w' : World) : rtc step w w' -> nodes_advance w w'.
Proof.
  apply (related_run nodes_advance).
  - intros w0. apply nodes_advance_same. reflexivity.
  - exact nodes_advance_trans.
  - intros f w0. apply nodes_advance_same. reflexivity.
  - intros rq w0. apply nodes_advance_same. reflexivity.
  - intros v w0. apply nodes_advance_same. reflexivity.
  - intros w0. apply nodes_advance_same. reflexivity.
  - intros w0. apply nodes_advance_same, ensureAudioContext_frame.
  - exact nodes_advance_play.
  - intros k v w0. apply nodes_advance_same. reflexivity.
  - exact nodes_advance_reachEnd.
  - exact nodes_advance_dispatchEnded.
Qed.

End NodeHistory.

(** X14. Along every run, whatever handlers and platform events it is made
    of, a source node once created stays at its index with its buffer and
    its handler, and only moves forward: from playing to ending to ended,
    keeping the cause of its end. So the number of nodes never goes down,
    and a node that has stopped is never played again. *)
Theorem sessions_only_move_forward (w w' : World) :
  rtc step w w' ->
  nodes_advance w w'
  /\ (length (nodes w) <= length (nodes w'))%nat
  /\ (forall i st, node_state i w = Some st -> st <> Playing ->
                   exists st', node_state i w' = Some st' /\ st' <> Playing).
Proof.
  intros Hrun. apply nodes_advance_run in Hrun as Hadv.
  split; [exact Hadv|]. split.
  - destruct (decide (length (nodes w) = 0)%nat) as [Hz|Hz]; [lia|].
    destruct (lookup_lt_is_Some_2 (nodes w) (length (nodes w) - 1)) as [n Hn]; [lia|].
    destruct (Hadv _ n Hn) as (n' & Hi & _).
    apply lookup_lt_Some in Hi. lia.
  - intros i st Hi Hst. apply node_state_Some in Hi. destruct Hi as (n & Hi & <-).
    destruct (Hadv i n Hi) as (n' & Hi' & _ & _ & _ & Hs).
    exists (state n'). split; [apply node_state_Some; exists n'; split; trivial|].
    intros Hp. rewrite Hp in Hs. destruct (state n); simpl in Hs; contradiction.
Qed.

Lemma sessions_only_move_forward_witness :
  exists st', node_state 0 (dispatchEnded 0 Scenario.twice) = Some st' /\ st' <> Playing.
Proof.
  refine (proj2 (proj2 (sessions_only_move_forward Scenario.twice
                          (dispatchEnded 0 Scenario.twice) _)) 0%nat (Ending StopCalled) _ _).
  - apply rtc_once, step_dispatch.
  - vm_compute. reflexivity.
  - discriminate.
Defined.

Section AudioContextLife.

(** Neither the ref nor the count of constructions is touched. *)
Lemma context_kept_same (w w' : World) :
  audioContextRef w' = audioContextRef w -> contexts w' = contexts w ->
  context_kept w w'.
Proof.
  intros Hr Hc. unfold context_kept. rewrite Hr, Hc.
  destruct (audioContextRef w); [split; reflexivity | left; split; reflexivity].
Qed.

Lemma context_kept_trans (w1 w2 w3 : World) :
  context_kept w1 w2 -> context_kept w2 w3 -> context_kept w1 w3.
Proof.
  unfold context_kept. intros H12 H23.
  destruct (audioContextRef w1) as [c|].
  - destruct H12 as [Hr Hc]. rewrite Hr in H23. destruct H23 as [Hr' Hc'].
    split; congruence.
  - destruct H12 as [[Hr Hc]|[Hr Hc]]; rewrite Hr in H23.
    + rewrite Hc in H23. destruct H23 as [[Hr' Hc']|[Hr' Hc']];
        [left | right]; split; congruence.
    + destruct H23 as [Hr' Hc']. right. split; congruence.
Qed.

Lemma context_kept_ensure : relates context_kept ensureAudioContext.
Proof.
  intros w. unfold context_kept, ensureAudioContext.
  destruct (audioContextRef w) as [c|] eqn:E; simpl;
    [split; [exact E | reflexivity] | right; split; reflexivity].
Qed.

Lemma play_context (buf : AudioBuffer) (w : World) :
  audioContextRef (play buf w) = audioContextRef w
  /\ contexts (play buf w) = contexts w.
Proof. unfold play, stopCurrent. destruct (sourceNodeRef w); split; reflexivity. Qed.

Lemma reachEnd_context (i : nat) (w : World) :
  audioContextRef (reachEnd i w) = audioContextRef w
  /\ contexts (reachEnd i w) = contexts w.
Proof.
  unfold reachEnd. destruct (nodes w !! i) as [n|]; [|split; reflexivity].
  destruct (state n); split; reflexivity.
Qed.

Lemma dispatchEnded_context (i : nat) (w : World) :
  audioContextRef (dispatchEnded i w) = audioContextRef w
  /\ contexts (dispatchEnded i w) = contexts w.
Proof.
  unfold dispatchEnded. destruct (nodes w !! i) as [n|]; [|split; reflexivity].
  destruct (state n); try (split; reflexivity).
  destruct (onended n) as [[]|]; split; reflexivity.
Qed.

Lemma context_kept_run (w w' : World) : rtc step w w' -> context_kept w w'.
Proof.
  apply (related_run context_kept).
  - intros w0. apply context_kept_same; reflexivity.
  - exact context_kept_trans.
  - intros f w0. apply context_kept_same; reflexivity.
  - intros rq w0. apply context_kept_same; reflexivity.
  - intros v w0. apply context_kept_same; reflexivity.
  - intros w0. apply context_kept_same; reflexivity.
  - exact context_kept_ensure.
  - intros buf w0. apply context_kept_same; apply play_context.
  - intros k v w0. apply context_kept_same; reflexivity.
  - intros i w0. apply context_kept_same; apply reachEnd_context.
  - intros i w0. apply context_kept_same; apply dispatchEnded_context.
Qed.

Lemma start_context (storage : gmap jsstring jsstring) :
  audioContextRef (start storage) = None /\ contexts (start storage) = 0%nat.
Proof.
  rewrite start_unfold. cbv zeta.
  destruct (storage !! vox_history) as [saved|]; [|split; reflexivity].
  destruct (falsy saved); [split; reflexivity|].
  destruct (JSON_parse saved); split; reflexivity.
Qed.

(** Since the page was loaded: no context constructed and none in the
    ref, or one constructed, the first, which is the one in the ref. *)
Lemma reachable_context (w : World) :
  reachable w ->
  (audioContextRef w = None /\ contexts w = 0%nat)
  \/ (audioContextRef w = Some (mkAudioContext 0 24000) /\ contexts w = 1%nat).
Proof.
  intros [storage Hrun]. apply context_kept_run in Hrun. unfold context_kept in Hrun.
  destruct (start_context storage) as [Hr Hc]. rewrite Hr, Hc in Hrun. exact Hrun.
Qed.

End AudioContextLife.

(** X15. [new AudioContext] runs at most once per page load. In every
    reachable world the number of contexts constructed since the load is
    0 or 1; the ref is empty exactly when it is 0; the context in the ref
    is the first one constructed and runs at 24000 Hz; and in every world
    reached afterwards the ref holds that same object and no further
    context has been constructed. *)
Theorem audio_context_created_once (w w' : World) :
  reachable w ->
  rtc step w w' ->
  (contexts w <= 1)%nat
  /\ (audioContextRef w = None <-> contexts w = 0%nat)
  /\ (forall ctx, audioContextRef w = Some ctx ->
        ctx = mkAudioContext 0 24000
        /\ audioContextRef w' = Some ctx
        /\ contexts w' = 1%nat).
Proof.
  intros Hreach Hrun. apply context_kept_run in Hrun. unfold context_kept in Hrun.
  destruct (reachable_context w Hreach) as [[Hr Hc]|[Hr Hc]]; rewrite Hr, Hc in *.
  - split; [lia|]. split; [split; reflexivity|]. intros ctx H. discriminate.
  - destruct Hrun as [Hr' Hc'].
    split; [lia|]. split; [split; intros H; discriminate|].
    intros ctx [= <-]. split; [reflexivity|]. split; assumption.
Qed.

Lemma audio_context_created_once_witness :
  audioContextRef Scenario.twice = Some (mkAudioContext 0 24000)
  /\ contexts Scenario.twice = 1%nat.
Proof.
  refine (proj2 (proj2 (proj2 (audio_context_created_once Scenario.once Scenario.twice
                                 reachable_once _))
                  (mkAudioContext 0 24000) _)).
  - apply rtc_once, step_speak.
  - vm_compute. reflexivity.
Defined.

(** X16. In every reachable world the ref [sourceNodeRef] is empty
    exactly when no source node has been created yet, and otherwise
    points to the node created last; and every node carries the handler
    that clears [isPlaying]. So the node that [stop()] is called on by
    the next playback is always the most recent one. *)
Theorem source_ref_is_latest_node (w : World) :
  reachable w ->
  (sourceNodeRef w = None <-> nodes w = [])
  /\ (forall i, sourceNodeRef w = Some i -> S i = length (nodes w))
  /\ (forall i n, nodes w !! i = Some n -> onended n = Some SetIsPlayingFalse).
Proof.
  intros Hreach. apply reachable_audio_inv in Hreach.
  destruct Hreach as [Hh [[Hn Hr]|(ns & n & Hn & _ & Hr)]].
  - split; [split; intros _; assumption|]. split.
    + intros i Hi. congruence.
    + intros i m Hi. rewrite Hn, lookup_nil in Hi. discriminate.
  - split; [split; intros H; [congruence|]|].
    + rewrite H in Hn. destruct ns; discriminate.
    + split.
      * intros i Hi. rewrite Hr in Hi. injection Hi as <-.
        rewrite Hn, length_app. simpl. lia.
      * intros i m Hi. rewrite Forall_forall in Hh. apply Hh.
        eapply list_elem_of_lookup_2, Hi.
Qed.

Lemma source_ref_is_latest_node_witness :
  sourceNodeRef Scenario.twice = Some 1%nat /\ length (nodes Scenario.twice) = 2%nat.
Proof.
  assert (Hr : sourceNodeRef Scenario.twice = Some 1%nat) by (vm_compute; reflexivity).
  split; [exact Hr|]. symmetry.
  exact (proj1 (proj2 (source_ref_is_latest_node Scenario.twice reachable_twice)) 1%nat Hr).
Defined.

(** ** The stored history read back *)

Section LexStrings.

Lemma hex_val_hex_char (d : N) : (d < 16)%N -> hex_val (hex_char d) = Some d.
Proof.
  intros H. unfold hex_val, hex_char, is_digit.
  destruct (d <? 10)%N eqn:E.
  - apply N.ltb_lt in E.
    replace ((48 <=? d + 48) && (d + 48 <=? 57))%N with true
      by (symmetry; apply andb_true_iff; split; apply N.leb_le; lia).
    f_equal. lia.
  - apply N.ltb_ge in E.
    replace ((48 <=? d + 87) && (d + 87 <=? 57))%N with false
      by (symmetry; apply andb_false_iff; right; apply N.leb_gt; lia).
    replace ((97 <=? d + 87) && (d + 87 <=? 102))%N with true
      by (symmetry; apply andb_true_iff; split; apply N.leb_le; lia).
    f_equal. lia.
Qed.

Lemma lex_cons (st : LexState) (toks : list Token) (c : N) (s : jsstring) :
  lex st toks (c :: s)
  = match lex_step st toks c with
    | Some (st', toks') => lex st' toks' s
    | None => None
    end.
Proof. reflexivity. Qed.

(** The lexer reads [\uXXXX] back as the unit it was written for. *)
Lemma lex_unicode_escape (c : N) (acc : jsstring) (toks : list Token) (rest : jsstring) :
  (c < 65536)%N ->
  lex (LStr acc) toks (unicode_escape c ++ rest) = lex (LStr (c :: acc)) toks rest.
Proof.
  intros Hc. unfold unicode_escape.
  assert (H3 : (c / 4096 < 16)%N) by (zify; Z.to_euclidean_division_equations; lia).
  assert (H2 : ((c / 256) mod 16 < 16)%N) by (zify; Z.to_euclidean_division_equations; lia).
  assert (H1 : ((c / 16) mod 16 < 16)%N) by (zify; Z.to_euclidean_division_equations; lia).
  assert (H0 : (c mod 16 < 16)%N) by (zify; Z.to_euclidean_division_equations; lia).
  rewrite <- !app_comm_cons, app_nil_l.
  rewrite lex_cons. change (lex_step (LStr acc) toks 92%N) with (Some (LEsc acc, toks)).
  cbv iota beta.
  rewrite lex_cons. change (lex_step (LEsc acc) toks 117%N) with (Some (LUni acc 0 0%N, toks)).
  cbv iota beta.
  rewrite lex_cons. cbn [lex_step]. rewrite (hex_val_hex_char _ H3). cbn [Nat.eqb].
  cbv iota beta.
  rewrite lex_cons. cbn [lex_step]. rewrite (hex_val_hex_char _ H2). cbn [Nat.eqb].
  cbv iota beta.
  rewrite lex_cons. cbn [lex_step]. rewrite (hex_val_hex_char _ H1). cbn [Nat.eqb].
  cbv iota beta.
  rewrite lex_cons. cbn [lex_step]. rewrite (hex_val_hex_char _ H0). cbn [Nat.eqb].
  cbv iota beta.
  replace (16 * (16 * (16 * (16 * 0 + c / 4096) + (c / 256) mod 16) + (c / 16) mod 16)
           + c mod 16)%N with c
    by (zify; Z.to_euclidean_division_equations; lia).
  reflexivity.
Qed.

End LexStrings.

Section LexQuoted.

Lemma lex_short_escape (c e : N) (acc : jsstring) (toks : list Token) (rest : jsstring) :
  lex_escape e = Some c -> (e =? 117)%N = false ->
  lex (LStr acc) toks (92%N :: e :: rest) = lex (LStr (c :: acc)) toks rest.
Proof.
  intros He Hu. rewrite lex_cons.
  change (lex_step (LStr acc) toks 92%N) with (Some (LEsc acc, toks)). cbv iota beta.
  rewrite lex_cons. cbn [lex_step]. change (ch "u") with 117%N. rewrite Hu, He.
  reflexivity.
Qed.

Lemma lex_literal (c : N) (acc : jsstring) (toks : list Token) (rest : jsstring) :
  (c =? 34)%N = false -> (c =? 92)%N = false -> (c <? 32)%N = false ->
  lex (LStr acc) toks (c :: rest) = lex (LStr (c :: acc)) toks rest.
Proof.
  intros H34 H92 H32. rewrite lex_cons. cbn [lex_step]. rewrite H34, H92, H32.
  reflexivity.
Qed.

Lemma surrogate_is_literal (c : N) :
  is_high_surrogate c = true \/ is_low_surrogate c = true ->
  (c =? 34)%N = false /\ (c =? 92)%N = false /\ (c <? 32)%N = false /\ (c < 65536)%N.
Proof.
  unfold is_high_surrogate, is_low_surrogate.
  intros [H|H]; apply andb_true_iff in H; destruct H as [H1 H2];
    apply N.leb_le in H1, H2;
    (split; [apply N.eqb_neq; lia|]); (split; [apply N.eqb_neq; lia|]);
    (split; [apply N.ltb_ge; lia | lia]).
Qed.

Lemma rev_cons_app (c : N) (acc s : jsstring) : rev (c :: acc) ++ s = rev acc ++ c :: s.
Proof. simpl. rewrite <- app_assoc. reflexivity. Qed.

(** The lexer reads the text [QuoteJSONString] writes for a string back
    as that string, unit by unit. *)
Lemma lex_quote_units (s : jsstring) :
  forall (paired : bool) (acc : jsstring) (toks : list Token) (rest : jsstring),
    (paired = true -> match s with c :: _ => is_low_surrogate c = true | [] => False end) ->
    lex (LStr acc) toks (quote_units paired s ++ 34%N :: rest)
    = lex LIdle (TScalar (JStr (rev acc ++ s)) :: toks) rest.
Proof.
  induction s as [|c s IH]; intros paired acc toks rest Hp.
  - simpl quote_units. rewrite app_nil_l, app_nil_r, lex_cons. reflexivity.
  - rewrite <- rev_cons_app. cbn [quote_units].
    assert (Hnext : forall acc',
               lex (LStr acc') toks (quote_units false s ++ 34%N :: rest)
               = lex LIdle (TScalar (JStr (rev acc' ++ s)) :: toks) rest).
    { intros acc'. apply IH. discriminate. }
    destruct (c =? 8)%N eqn:E8.
    { apply N.eqb_eq in E8. subst c. change (js "\b") with [92%N; 98%N].
      rewrite <- app_assoc, <- !app_comm_cons, app_nil_l.
      rewrite (lex_short_escape 8) by reflexivity. apply Hnext. }
    destruct (c =? 9)%N eqn:E9.
    { apply N.eqb_eq in E9. subst c. change (js "\t") with [92%N; 116%N].
      rewrite <- app_assoc, <- !app_comm_cons, app_nil_l.
      rewrite (lex_short_escape 9) by reflexivity. apply Hnext. }
    destruct (c =? 10)%N eqn:E10.
    { apply N.eqb_eq in E10. subst c. change (js "\n") with [92%N; 110%N].
      rewrite <- app_assoc, <- !app_comm_cons, app_nil_l.
      rewrite (lex_short_escape 10) by reflexivity. apply Hnext. }
    destruct (c =? 12)%N eqn:E12.
    { apply N.eqb_eq in E12. subst c. change (js "\f") with [92%N; 102%N].
      rewrite <- app_assoc, <- !app_comm_cons, app_nil_l.
      rewrite (lex_short_escape 12) by reflexivity. apply Hnext. }
    destruct (c =? 13)%N eqn:E13.
    { apply N.eqb_eq in E13. subst c. change (js "\r") with [92%N; 114%N].
      rewrite <- app_assoc, <- !app_comm_cons, app_nil_l.
      rewrite (lex_short_escape 13) by reflexivity. apply Hnext. }
    destruct (c =? 34)%N eqn:E34.
    { apply N.eqb_eq in E34. subst c.
      rewrite <- app_assoc, <- !app_comm_cons, app_nil_l.
      rewrite (lex_short_escape 34) by reflexivity. apply Hnext. }
    destruct (c =? 92)%N eqn:E92.
    { apply N.eqb_eq in E92. subst c.
      rewrite <- app_assoc, <- !app_comm_cons, app_nil_l.
      rewrite (lex_short_escape 92) by reflexivity. apply Hnext. }
    destruct (c <? 32)%N eqn:E32.
    { rewrite <- app_assoc, lex_unicode_escape by (apply N.ltb_lt in E32; lia).
      apply Hnext. }
    destruct (is_high_surrogate c) eqn:Eh.
    { destruct (surrogate_is_literal c (or_introl Eh)) as (_ & _ & _ & Hc).
      destruct s as [|c' s'].
      - rewrite lex_unicode_escape by exact Hc. apply (Hnext (c :: acc)).
      - destruct (is_low_surrogate c') eqn:El.
        + rewrite <- app_comm_cons, lex_literal by assumption.
          apply IH. intros _. reflexivity.
        + rewrite <- app_assoc, lex_unicode_escape by exact Hc. apply Hnext. }
    destruct (is_low_surrogate c) eqn:El.
    { destruct (surrogate_is_literal c (or_intror El)) as (_ & _ & _ & Hc).
      destruct paired.
      - rewrite <- app_assoc, <- app_comm_cons, app_nil_l, lex_literal by assumption.
        apply Hnext.
      - rewrite <- app_assoc, lex_unicode_escape by exact Hc. apply Hnext. }
    rewrite <- app_comm_cons, lex_literal by assumption. apply Hnext.
Qed.

(** A quoted string is one token. *)
Lemma lex_quote (s : jsstring) (toks : list Token) (rest : jsstring) :
  lex LIdle toks (quote s ++ rest) = lex LIdle (TScalar (JStr s) :: toks) rest.
Proof.
  unfold quote. rewrite <- !app_assoc, <- app_comm_cons, app_nil_l, lex_cons.
  change (lex_step LIdle toks 34%N) with (Some (LStr [], toks)). cbv iota beta.
  rewrite <- app_comm_cons, app_nil_l.
  apply (lex_quote_units s false [] toks rest). discriminate.
Qed.

End LexQuoted.

Section LexNumbers.

Lemma uint_digits_small (u : Decimal.uint) : Forall (fun d => (d < 10)%N) (uint_digits u).
Proof. induction u; simpl; constructor; trivial; lia. Qed.

Lemma strip_zeros_idem (ds : list N) : strip_zeros (strip_zeros ds) = strip_zeros ds.
Proof.
  induction ds as [|d ds IH]; [reflexivity|]. simpl.
  destruct (d =? 0)%N eqn:E; [exact IH|]. simpl. rewrite E. reflexivity.
Qed.

Lemma strip_zeros_head (ds : list N) (d : N) (t : list N) :
  strip_zeros ds = d :: t -> d <> 0%N.
Proof.
  induction ds as [|x ds IH]; [discriminate|]. simpl.
  destruct (x =? 0)%N eqn:E; [exact IH|].
  intros [= <- _]. apply N.eqb_neq, E.
Qed.

Lemma strip_zeros_small (ds : list N) :
  Forall (fun d => (d < 10)%N) ds -> Forall (fun d => (d < 10)%N) (strip_zeros ds).
Proof.
  induction 1 as [|x ds Hx Hds IH]; [constructor|]. simpl.
  destruct (x =? 0)%N; [exact IH | constructor; assumption].
Qed.

Lemma strip_zeros_length (ds : list N) : (length (strip_zeros ds) <= length ds)%nat.
Proof.
  induction ds as [|x ds IH]; [reflexivity|]. simpl.
  destruct (x =? 0)%N; simpl; lia.
Qed.

Lemma strip_zeros_nil (ds : list N) :
  strip_zeros ds = [] -> Forall (fun d => d = 0%N) ds.
Proof.
  induction ds as [|x ds IH]; [constructor|]. simpl.
  destruct (x =? 0)%N eqn:E; [|discriminate].
  intros H. constructor; [apply N.eqb_eq, E | apply IH, H].
Qed.

(** A digit string is its stripped form after the zeros stripped. *)
Lemma strip_zeros_split (ds : list N) :
  ds = repeat 0%N (length ds - length (strip_zeros ds)) ++ strip_zeros ds.
Proof.
  induction ds as [|x ds IH]; [reflexivity|]. simpl strip_zeros.
  destruct (x =? 0)%N eqn:E.
  - apply N.eqb_eq in E. subst x. pose proof (strip_zeros_length ds).
    replace (length (0%N :: ds) - length (strip_zeros ds))%nat
      with (S (length ds - length (strip_zeros ds))) by (simpl; lia).
    simpl. f_equal. exact IH.
  - rewrite Nat.sub_diag. reflexivity.
Qed.

Lemma rev_repeat_zero (k : nat) : rev (repeat 0%N k) = repeat 0%N k.
Proof.
  induction k as [|k IH]; [reflexivity|]. simpl. rewrite IH.
  clear IH. induction k as [|k IH]; [reflexivity|]. simpl. rewrite IH. reflexivity.
Qed.

(** The same at the other end: the significant digits, then the zeros
    that were cut. *)
Lemma strip_trailing_split (ds : list N) :
  ds = rev (strip_zeros (rev ds))
       ++ repeat 0%N (length ds - length (rev (strip_zeros (rev ds)))).
Proof.
  pose proof (strip_zeros_split (rev ds)) as H.
  apply (f_equal (@rev N)) in H. rewrite rev_involutive, rev_app_distr, rev_repeat_zero in H.
  rewrite length_rev in H. rewrite length_rev. exact H.
Qed.

Lemma is_digit_digit_char (d : N) : (d < 10)%N -> is_digit (digit_char d) = true.
Proof.
  intros H. unfold is_digit, digit_char. apply andb_true_iff.
  split; apply N.leb_le; lia.
Qed.

Lemma digit_val_digit_char (d : N) : digit_val (digit_char d) = d.
Proof. unfold digit_val, digit_char. lia. Qed.

(** Digits after the first are pushed one by one. *)
Lemma lex_int_digits (ds : list N) :
  forall (a : NumAcc) (toks : list Token) (rest : jsstring),
    Forall (fun d => (d < 10)%N) ds ->
    lex (LNum NInt a) toks (List.map digit_char ds ++ rest)
    = lex (LNum NInt (mkNumAcc (nneg a) (rev ds ++ ndigits a) (nfrac a) (neneg a) (nexp a)))
          toks rest.
Proof.
  induction ds as [|d ds IH]; intros a toks rest Hds.
  - destruct a. reflexivity.
  - inversion Hds as [|? ? Hd Hds']; subst.
    cbn [List.map]. rewrite <- app_comm_cons, lex_cons. cbn [lex_step lex_number].
    rewrite (is_digit_digit_char d Hd). rewrite (IH _ toks rest Hds').
    unfold push_digit. cbn [nneg ndigits nfrac neneg nexp].
    rewrite digit_val_digit_char. simpl rev. rewrite <- app_assoc. reflexivity.
Qed.

Lemma small_nonzero_digit (d : N) :
  (d < 10)%N -> d <> 0%N ->
  d = 1%N \/ d = 2%N \/ d = 3%N \/ d = 4%N \/ d = 5%N \/ d = 6%N \/ d = 7%N
  \/ d = 8%N \/ d = 9%N.
Proof. lia. Qed.

(** The first digit of an integer without leading zero, with or without
    a sign before it. *)
Lemma lex_first_digit (neg : bool) (d : N) (toks : list Token) (rest : jsstring) :
  (d < 10)%N -> d <> 0%N ->
  lex LIdle toks ((if neg then js "-" else []) ++ digit_char d :: rest)
  = lex (LNum NInt (mkNumAcc neg [d] 0 false 0)) toks rest.
Proof.
  intros Hd Hz.
  destruct (small_nonzero_digit d Hd Hz) as [H|[H|[H|[H|[H|[H|[H|[H|H]]]]]]]];
    subst d; destruct neg; reflexivity.
Qed.

(** A closing brace ends the integer and is the next token. *)
Lemma lex_int_end (a : NumAcc) (toks : list Token) (rest : jsstring) :
  lex (LNum NInt a) toks (125%N :: rest)
  = lex LIdle (TRBrace :: number_token a :: toks) rest.
Proof. reflexivity. Qed.

Lemma decimal_of_digits_strip (neg : bool) (ds : list N) (e : Z) :
  decimal_of_digits neg (strip_zeros ds) e = decimal_of_digits neg ds e.
Proof. unfold decimal_of_digits. rewrite strip_zeros_idem. reflexivity. Qed.

End LexNumbers.

Section LexIntegers.

Lemma repeat_zero_all (k : nat) : Forall (fun d => d = 0%N) (repeat 0%N k).
Proof. induction k as [|k IH]; simpl; constructor; trivial. Qed.

(** An integer of at most 21 digits is written digit by digit. *)
Lemma number_text_integer (neg : bool) (d1 : N) (t : list N) :
  d1 <> 0%N -> (length (d1 :: t) <= 21)%nat ->
  number_text (decimal_of_digits neg (d1 :: t) 0)
  = (if neg then js "-" else []) ++ List.map digit_char (d1 :: t).
Proof.
  intros Hz Hlen. unfold decimal_of_digits.
  assert (Hs : strip_zeros (d1 :: t) = d1 :: t).
  { simpl. apply N.eqb_neq in Hz. rewrite Hz. reflexivity. }
  rewrite Hs. pose proof (strip_trailing_split (d1 :: t)) as Hsplit.
  set (sig := rev (strip_zeros (rev (d1 :: t)))) in *.
  destruct sig as [|s1 st] eqn:Es.
  - exfalso. apply Hz.
    assert (Hall : Forall (fun d => d = 0%N) (d1 :: t)).
    { rewrite Hsplit. rewrite app_nil_l. apply repeat_zero_all. }
    inversion Hall. assumption.
  - unfold number_text. cbn [dsig dneg dpoint]. f_equal.
    assert (Hl : length (d1 :: t)
                 = (length (s1 :: st) + (length (d1 :: t) - length (s1 :: st)))%nat).
    { rewrite Hsplit at 1. rewrite length_app, repeat_length. reflexivity. }
    replace ((Z.of_nat (length (List.map digit_char (s1 :: st)))
              <=? Z.of_nat (length (d1 :: t)) + 0)
             && (Z.of_nat (length (d1 :: t)) + 0 <=? 21)) with true
      by (symmetry; apply andb_true_iff; rewrite List.length_map;
          split; apply Z.leb_le; lia).
    etransitivity; [|symmetry; exact (f_equal (List.map digit_char) Hsplit)].
    rewrite List.map_app, List.map_repeat. f_equal. f_equal.
    rewrite List.length_map. lia.
Qed.

(** The text of an integer of at most 21 digits, followed by a closing
    brace, is read back as that number and the brace. *)
Lemma lex_integer (neg : bool) (D : list N) (toks : list Token) (rest : jsstring) :
  Forall (fun d => (d < 10)%N) D -> (length D <= 21)%nat ->
  lex LIdle toks (number_text (decimal_of_digits neg D 0) ++ 125%N :: rest)
  = lex LIdle (TRBrace :: TScalar (JNum (decimal_of_digits neg D 0)) :: toks) rest.
Proof.
  intros Hsmall Hlen. rewrite <- (decimal_of_digits_strip neg D 0).
  pose proof (strip_zeros_small D Hsmall) as Hs.
  pose proof (strip_zeros_length D) as Hl.
  destruct (strip_zeros D) as [|d1 t] eqn:El; [reflexivity|].
  pose proof (strip_zeros_head D d1 t El) as Hz.
  rewrite number_text_integer by (trivial; lia).
  inversion Hs as [|? ? Hd1 Ht]; subst.
  cbn [List.map]. rewrite <- app_assoc, <- app_comm_cons.
  rewrite lex_first_digit by assumption.
  rewrite (lex_int_digits t _ toks (125%N :: rest) Ht), lex_int_end.
  unfold number_token. cbn [nneg ndigits nfrac neneg nexp].
  rewrite rev_app_distr, rev_involutive. reflexivity.
Qed.

Lemma lex_timestamp (z : Z) (toks : list Token) (rest : jsstring) :
  (length (nat_digits (Z.to_N (Z.abs z))) <= 21)%nat ->
  lex LIdle toks (number_text (decimal_of_Z z) ++ 125%N :: rest)
  = lex LIdle (TRBrace :: TScalar (JNum (decimal_of_Z z)) :: toks) rest.
Proof.
  intros H. unfold decimal_of_Z. apply lex_integer; [apply uint_digits_small | exact H].
Qed.

End LexIntegers.

Section ReadRecords.

Lemma stringify_record (r : Types.TranslationResult) :
  JSON_stringify (Types.to_js r)
  = 123%N :: quote (js "originalText") ++ 58%N :: quote (Types.originalText r)
    ++ 44%N :: quote (js "translatedText") ++ 58%N :: quote (Types.translatedText r)
    ++ 44%N :: quote (js "sourceLang") ++ 58%N :: quote (Types.sourceLang r)
    ++ 44%N :: quote (js "targetLang") ++ 58%N :: quote (Types.targetLang r)
    ++ 44%N :: quote (js "timestamp") ++ 58%N
    :: number_text (decimal_of_Z (Types.timestamp r)) ++ [125%N].
Proof.
  unfold Types.to_js. cbn [JSON_stringify List.map join fst snd].
  change (js "{") with [123%N]. change (js "}") with [125%N].
  change (js ",") with [44%N]. change (js ":") with [58%N].
  rewrite <- !app_assoc. reflexivity.
Qed.

Lemma lex_punct (c : N) (t : Token) (toks : list Token) (rest : jsstring) :
  lex_idle toks c = Some (LIdle, t :: toks) ->
  lex LIdle toks (c :: rest) = lex LIdle (t :: toks) rest.
Proof. intros H. rewrite lex_cons. cbn [lex_step]. rewrite H. reflexivity. Qed.

Lemma lex_record (r : Types.TranslationResult) (toks : list Token) (rest : jsstring) :
  plain_timestamp r ->
  lex LIdle toks (JSON_stringify (Types.to_js r) ++ rest)
  = lex LIdle (rev (record_tokens r) ++ toks) rest.
Proof.
  intros Hts. rewrite stringify_record.
  repeat first
    [ rewrite <- app_comm_cons
    | rewrite <- app_assoc
    | rewrite lex_quote
    | rewrite (lex_punct 123%N TLBrace) by reflexivity
    | rewrite (lex_punct 58%N TColon) by reflexivity
    | rewrite (lex_punct 44%N TComma) by reflexivity ].
  rewrite app_nil_l, (lex_timestamp _ _ rest Hts). reflexivity.
Qed.

Lemma parse_record (r : Types.TranslationResult) (acc : list JSValue) (up : list Frame)
    (fresh : bool) (rest : list Token) :
  parse_tokens (FArr acc :: up) (PValue fresh) (record_tokens r ++ rest)
  = parse_tokens (FArr (Types.to_js r :: acc) :: up) PAfter rest.
Proof. destruct fresh; reflexivity. Qed.

Lemma lex_records (rs : list Types.TranslationResult) :
  forall (toks : list Token) (rest : jsstring),
    Forall plain_timestamp rs ->
    lex LIdle toks
        (join (js ",") (List.map JSON_stringify (List.map Types.to_js rs)) ++ rest)
    = lex LIdle (rev (records_tokens rs) ++ toks) rest.
Proof.
  induction rs as [|r rs IH]; intros toks rest Hrs; [reflexivity|].
  inversion Hrs as [|? ? Hr Hrs']; subst.
  destruct rs as [|r2 rs].
  - cbn [List.map join records_tokens]. apply lex_record, Hr.
  - change (join (js ",") (List.map JSON_stringify (List.map Types.to_js (r :: r2 :: rs))))
      with (JSON_stringify (Types.to_js r)
            ++ [44%N]
            ++ join (js ",") (List.map JSON_stringify (List.map Types.to_js (r2 :: rs)))).
    rewrite <- !app_assoc, (lex_record r _ _ Hr).
    rewrite <- app_comm_cons, app_nil_l, (lex_punct 44%N TComma) by reflexivity.
    rewrite (IH _ rest Hrs').
    change (records_tokens (r :: r2 :: rs))
      with (record_tokens r ++ TComma :: records_tokens (r2 :: rs)).
    rewrite rev_app_distr.
    change (rev (TComma :: records_tokens (r2 :: rs)))
      with (rev (records_tokens (r2 :: rs)) ++ [TComma]).
    rewrite <- !app_assoc. reflexivity.
Qed.

Lemma parse_records (rs : list Types.TranslationResult) :
  forall (acc : list JSValue) (fresh : bool),
    rs <> [] ->
    parse_tokens [FArr acc] (PValue fresh) (records_tokens rs ++ [TRBracket])
    = Some (JArr (rev acc ++ List.map Types.to_js rs)).
Proof.
  induction rs as [|r rs IH]; intros acc fresh Hne; [congruence|].
  destruct rs as [|r2 rs].
  - cbn [records_tokens]. rewrite parse_record. reflexivity.
  - change (records_tokens (r :: r2 :: rs))
      with (record_tokens r ++ TComma :: records_tokens (r2 :: rs)).
    rewrite <- app_assoc, parse_record, <- app_comm_cons.
    change (parse_tokens [FArr (Types.to_js r :: acc)] PAfter
              (TComma :: records_tokens (r2 :: rs) ++ [TRBracket]))
      with (parse_tokens [FArr (Types.to_js r :: acc)] (PValue false)
              (records_tokens (r2 :: rs) ++ [TRBracket])).
    rewrite IH by discriminate. simpl rev. rewrite <- app_assoc. reflexivity.
Qed.

(** [JSON.parse] reads the text [JSON.stringify] writes for a list of
    records back as that list. *)
Lemma parse_stringify_records (rs : list Types.TranslationResult) :
  Forall plain_timestamp rs ->
  JSON_parse (JSON_stringify (JArr (List.map Types.to_js rs)))
  = Some (JArr (List.map Types.to_js rs)).
Proof.
  intros Hrs. unfold JSON_parse. cbn [JSON_stringify].
  change (js "[") with [91%N]. change (js "]") with [93%N].
  rewrite <- app_comm_cons, app_nil_l, (lex_punct 91%N TLBracket) by reflexivity.
  rewrite (lex_records rs _ _ Hrs).
  rewrite (lex_punct 93%N TRBracket) by reflexivity.
  cbn [lex]. simpl rev. rewrite rev_app_distr, rev_involutive. simpl rev.
  cbn [app parse_tokens parse_step].
  destruct rs as [|r rs]; [reflexivity|].
  rewrite <- app_comm_cons. apply (parse_records (r :: rs) [] true). discriminate.
Qed.

Lemma stringify_array_nonempty (items : list JSValue) : JSON_stringify (JArr items) <> [].
Proof. cbn [JSON_stringify]. change (js "[") with [91%N]. discriminate. Qed.

End ReadRecords.

(** X17. What a submission stores, a restart reads back. Take a render
    whose history is a list of records and a submission whose translation
    succeeded, all time stamps being integers of at most 21 digits (those
    of [Date.now()] have 13). The text stored under the key is then parsed
    by the next page load into exactly the history the submission left in
    memory: the new record first, then the old ones, ten at most. *)
Theorem submitted_history_survives_restart
    (snap : Snapshot) (o : Oracle) (w : World) (tr : jsstring)
    (rs : list Types.TranslationResult) :
  trim (inputText snap) <> [] ->
  translated (inputText snap) (sourceLang snap) (targetLang snap) (translateReply o)
  = Return tr ->
  history snap = JArr (List.map Types.to_js rs) ->
  Forall plain_timestamp rs ->
  (length (nat_digits (Z.to_N (Z.abs (now o)))) <= 21)%nat ->
  let w' := handleTranslateAndSpeak snap o w in
  let saved :=
    take 10 (Types.mkTranslationResult (inputText snap) tr (sourceLang snap)
               (targetLang snap) (now o) :: rs) in
  history (app w') = JArr (List.map Types.to_js saved)
  /\ (exists text, localStorage w' !! vox_history = Some text
                   /\ JSON_parse text = Some (history (app w')))
  /\ history (app (restart w')) = history (app w').
Proof.
  intros Ht Htr Hh Hrs Hnow w' saved. subst w'.
  destruct (submit_history snap o w tr _ Ht Htr Hh) as [Hh' Hs'].
  assert (Hsaved : take 10 (submitted_record snap tr o :: List.map Types.to_js rs)
                   = List.map Types.to_js saved).
  { subst saved. rewrite <- List.firstn_map. reflexivity. }
  rewrite Hsaved in Hh', Hs'.
  assert (Hplain : Forall plain_timestamp saved).
  { subst saved. apply Forall_take. constructor; [exact Hnow | exact Hrs]. }
  pose proof (parse_stringify_records saved Hplain) as Hparse.
  assert (Hkey : localStorage (handleTranslateAndSpeak snap o w) !! vox_history
                 = Some (JSON_stringify (JArr (List.map Types.to_js saved)))).
  { rewrite Hs'. apply lookup_insert_eq. }
  split; [exact Hh'|]. split.
  - eexists. split; [exact Hkey|]. rewrite Hh'. exact Hparse.
  - rewrite Hh'. unfold restart.
    apply (start_parsed _ _ _ Hkey); [apply stringify_array_nonempty | exact Hparse].
Qed.

Lemma submitted_history_survives_restart_witness :
  history (app (restart Scenario.submitted)) = history (app Scenario.submitted).
Proof.
  refine (proj2 (proj2 (submitted_history_survives_restart Scenario.snapshot
                          Scenario.answers (start ∅) (js "hola") [] _ _ _ _ _))).
  - vm_compute. discriminate.
  - reflexivity.
  - reflexivity.
  - constructor.
  - vm_compute. lia.
Defined.
